(** * PromiseCache: a shallow embedding of [src/PromiseCache.js]

    The cache maps string keys to entries holding a promise.  The JavaScript
    is single threaded, so every method runs to completion; a method is
    embedded as a function from the state before the call to the state after
    it, paired with the way the call completed (a returned value or a thrown
    error).  The state holds the fields of the PromiseCache object together
    with the part of the host the code talks to: the object allocator (object
    identity matters for [===]), the log of setter invocations, the rejection
    callbacks registered through [promise.then], and the interval timers.
    The reading of the clock during a call is an argument of the call.

    The earlier version of the class, which carries its own [isExpired] and
    [CacheEntry], is embedded in module [V1]. *)

From Stdlib Require Import List String ZArith Lia Bool Permutation.
Import ListNotations.
Local Open Scope Z_scope.

(** ** JavaScript objects used as maps

    [this.cache] is a plain object used as a map.  Property order is kept
    because [for( var key in cache )] enumerates in that order: for keys that
    are not array indices this is the order of insertion, an assignment to an
    existing key keeps its place, and a deleted key that is added again goes to
    the end.  Keys are taken to be own properties (names that do not collide
    with members of [Object.prototype]). *)
Module JsObject.
Section WithValue.
Context {V : Type}.

Definition t := list (string * V).

Definition empty : t := [].

(** [o[ k ]] *)
Fixpoint lookup (k : string) (o : t) : option V :=
  match o with
  | [] => None
  | (k', v) :: o' => if String.eqb k k' then Some v else lookup k o'
  end.

(** [o[ k ] = v] *)
Fixpoint assign (k : string) (v : V) (o : t) : t :=
  match o with
  | [] => [(k, v)]
  | (k', v') :: o' =>
      if String.eqb k k' then (k', v) :: o' else (k', v') :: assign k v o'
  end.

(** [delete o[ k ]] *)
Fixpoint delete (k : string) (o : t) : t :=
  match o with
  | [] => []
  | (k', v') :: o' =>
      if String.eqb k k' then delete k o' else (k', v') :: delete k o'
  end.

Definition keys (o : t) : list string := map fst o.
Definition values (o : t) : list V := map snd o.
End WithValue.
Arguments t : clear implicits.
End JsObject.

(** A promise is opaque to the cache: only its identity is observed. *)
Definition PromiseRef := nat.

(** What a call of the [setter] function hands back: an object with a [then]
    method, or anything else ([null], [undefined], a number, an object without
    [then]). *)
Inductive SetterResult :=
| Thenable (p : PromiseRef)
| NotThenable.
Arguments Thenable p%_nat.

(** The second argument of [get]: a function, identified by [fn], together
    with what it returns if this call of [get] invokes it; or a value that is
    not a function. *)
Inductive SetterArg :=
| Fn (fn : nat) (ret : SetterResult)
| NotAFunction.
Arguments Fn fn%_nat ret.

Inductive JsError :=
| SetterNotFunction       (* '`setter` arg required, and must be a function' *)
| SetterResultNotPromise  (* '`setter` function must return a Promise object' *)
| TypeError.              (* a member access on null or undefined *)

Inductive Completion (A : Type) :=
| Normal (a : A)
| Throw (e : JsError).
Arguments Normal {A} a.
Arguments Throw {A} e.

(** Modelled from the spec: the class PromiseCache.CacheEntry that
    [PromiseCache.js] receives by injection is not part of the sources at hand.
    Section 4.1 of the specification gives its contract: the constructor
    records the key, the value and the clock reading; [isExpired(maxAge)] is
    true iff [maxAge] is non-null and [now() > insertedAt + maxAge].  [oid] is
    the identity of the JavaScript object, compared by [===]. *)
Module CacheEntry.
Record t := make {
  oid : nat;
  key : string;
  promise : PromiseRef;
  entryTime : Z
}.

Definition getKey (e : t) : string := key e.
Definition getPromise (e : t) : PromiseRef := promise e.

Definition isExpired (maxAge : option Z) (now : Z) (e : t) : bool :=
  match maxAge with
  | None => false
  | Some age => now >? entryTime e + age
  end.

(** [a === b] on two entry objects *)
Definition same (a b : t) : bool := Nat.eqb (oid a) (oid b).
End CacheEntry.
Arguments CacheEntry.make oid%_nat key%_string promise%_nat entryTime%_Z.

(** Modelled from the spec: the class PromiseCache.LruList is injected too and
    is not part of the sources at hand.  Section 4.2 of the specification
    describes a doubly linked list of entries with a most recently used and a
    least recently used end; the embedding keeps the sequence of linked nodes,
    most recently used first.  [touch] of an entry that is not linked is left
    open by the specification and is taken to do nothing, like [remove]. *)
Module LruList.
Definition t := list CacheEntry.t.

Definition empty : t := [].

Definition linked (e : CacheEntry.t) (l : t) : bool :=
  existsb (CacheEntry.same e) l.

Definition pushMru (e : CacheEntry.t) (l : t) : t := e :: l.

Definition remove (e : CacheEntry.t) (l : t) : t :=
  filter (fun x => negb (CacheEntry.same e x)) l.

Definition touch (e : CacheEntry.t) (l : t) : t :=
  if linked e l then e :: remove e l else l.

Definition getLru (l : t) : option CacheEntry.t := last (map Some l) None.
End LruList.

(** ** The PromiseCache object and its host *)

(** A rejection callback registered by
    [promise.then( null, angular.bind( this, this.removeIfEntry, key, cacheEntry ) )]. *)
Record Handler := mkHandler {
  hPromise : PromiseRef;
  hKey : string;
  hEntry : CacheEntry.t
}.

Record Config := mkConfig {
  maxSize : option Z;
  maxAge : option Z;
  pruneInterval : option Z
}.

(** The defaults of the prototype: [maxSize : null], [maxAge : null],
    [pruneInterval : 60 * 1000]. *)
Definition defaults : Config := mkConfig None None (Some 60000).

Record Host := mkHost {
  nextOid : nat;                (* identity given to the next [new CacheEntry] *)
  setterCalls : list nat;       (* setter invocations, most recent first *)
  handlers : list Handler;      (* rejection callbacks, in registration order *)
  intervals : list nat;         (* ids of the intervals that are running *)
  nextIntervalId : nat          (* id the next [setInterval] returns *)
}.

Record State := mkState {
  cfg : Config;
  cache : option (JsObject.t CacheEntry.t);
  size : Z;
  pruningIntervalId : option nat;
  lruList : option LruList.t;
  host : Host
}.

Definition set_cache c (s : State) : State :=
  mkState (cfg s) c (size s) (pruningIntervalId s) (lruList s) (host s).
Definition set_size n (s : State) : State :=
  mkState (cfg s) (cache s) n (pruningIntervalId s) (lruList s) (host s).
Definition set_pruningIntervalId i (s : State) : State :=
  mkState (cfg s) (cache s) (size s) i (lruList s) (host s).
Definition set_lruList l (s : State) : State :=
  mkState (cfg s) (cache s) (size s) (pruningIntervalId s) l (host s).
Definition set_host h (s : State) : State :=
  mkState (cfg s) (cache s) (size s) (pruningIntervalId s) (lruList s) h.

(** [new PromiseCache( cfg )] in a fresh host.  Interval ids start at 1, as
    [setInterval] never returns a falsy id. *)
Definition init (c : Config) : State :=
  mkState c None 0 None None (mkHost 0 [] [] [] 1).

(** *** Host primitives *)

Definition setInterval (s : State) : nat * State :=
  let h := host s in
  let id := nextIntervalId h in
  (id, set_host (mkHost (nextOid h) (setterCalls h) (handlers h)
                        (id :: intervals h) (S id)) s).

Definition clearInterval (id : nat) (s : State) : State :=
  let h := host s in
  set_host (mkHost (nextOid h) (setterCalls h) (handlers h)
                   (filter (fun i => negb (Nat.eqb i id)) (intervals h))
                   (nextIntervalId h)) s.

(** [setter()] : the invocation is logged. *)
Definition callSetter (fn : nat) (s : State) : State :=
  let h := host s in
  set_host (mkHost (nextOid h) (fn :: setterCalls h) (handlers h)
                   (intervals h) (nextIntervalId h)) s.

(** [new CacheEntry( key, promise )] at clock reading [now]. *)
Definition newCacheEntry (k : string) (p : PromiseRef) (now : Z) (s : State)
  : CacheEntry.t * State :=
  let h := host s in
  (CacheEntry.make (nextOid h) k p now,
   set_host (mkHost (S (nextOid h)) (setterCalls h) (handlers h)
                    (intervals h) (nextIntervalId h)) s).

(** [promise.then( null, bound removeIfEntry )] *)
Definition registerRejection (p : PromiseRef) (k : string) (e : CacheEntry.t)
    (s : State) : State :=
  let h := host s in
  set_host (mkHost (nextOid h) (setterCalls h)
                   (handlers h ++ [mkHandler p k e])
                   (intervals h) (nextIntervalId h)) s.

(** *** Methods of PromiseCache.prototype *)

Inductive RemoveResult := RetFalse | RetUndefined.

Definition stopPruningInterval (s : State) : State :=
  match pruningIntervalId s with
  | Some id => set_pruningIntervalId None (clearInterval id s)
  | None => s
  end.

Definition startPruningInterval (s : State) : State :=
  match pruningIntervalId s with
  | Some _ => s
  | None =>
      match pruneInterval (cfg s) with
      | None => s
      | Some _ =>
          match maxAge (cfg s) with
          | None => s
          | Some _ =>
              let '(id, s1) := setInterval s in
              set_pruningIntervalId (Some id) s1
          end
      end
  end.

Definition clear (s : State) : State :=
  stopPruningInterval (set_size 0 (set_lruList None (set_cache None s))).

Definition removeEntry (e : CacheEntry.t) (s : State)
  : State * Completion unit :=
  if size s =? 1 then (clear s, Normal tt)
  else
    let s1 := set_size (size s - 1) s in
    let s2 := match lruList s1 with
              | Some l => set_lruList (Some (LruList.remove e l)) s1
              | None => s1
              end in
    match cache s2 with
    | Some c =>
        (set_cache (Some (JsObject.delete (CacheEntry.getKey e) c)) s2,
         Normal tt)
    | None => (s2, Throw TypeError)
    end.

Definition remove (k : string) (s : State)
  : State * Completion RemoveResult :=
  match cache s with
  | None => (s, Normal RetFalse)
  | Some c =>
      match JsObject.lookup k c with
      | Some e =>
          match removeEntry e s with
          | (s', Normal _) => (s', Normal RetUndefined)
          | (s', Throw err) => (s', Throw err)
          end
      | None => (s, Normal RetUndefined)
      end
  end.

Definition removeIfEntry (k : string) (e : CacheEntry.t) (s : State)
  : State * Completion unit :=
  match cache s with
  | None => (s, Normal tt)
  | Some c =>
      match JsObject.lookup k c with
      | Some e' =>
          if CacheEntry.same e' e then
            match remove k s with
            | (s', Normal _) => (s', Normal tt)
            | (s', Throw err) => (s', Throw err)
            end
          else (s, Normal tt)
      | None => (s, Normal tt)
      end
  end.

(** The statements of [addEntry] that store the entry:
    [cacheEntry = this.cache[ key ] = new CacheEntry( key, promise );]
    [if( this.lruList ) this.lruList.pushMru( cacheEntry );]
    [this.size++;]
    [this.startPruningInterval();]
    An assignment to a property of null evaluates its right-hand side before
    it throws. *)
Definition storeEntry (k : string) (p : PromiseRef) (now : Z) (s : State)
  : State * Completion CacheEntry.t :=
  let '(e, s1) := newCacheEntry k p now s in
  match cache s1 with
  | None => (s1, Throw TypeError)
  | Some c =>
      let s2 := set_cache (Some (JsObject.assign k e c)) s1 in
      let s3 := match lruList s2 with
                | Some l => set_lruList (Some (LruList.pushMru e l)) s2
                | None => s2
                end in
      let s4 := set_size (size s3 + 1) s3 in
      (startPruningInterval s4, Normal e)
  end.

(** The eviction statement of [addEntry]:
    [if( this.maxSize !== null && this.size > this.maxSize )
       this.remove( this.lruList.getLru().getKey() );] *)
Definition evictOverflow (s : State) : State * Completion unit :=
  match maxSize (cfg s) with
  | Some m =>
      if size s >? m then
        match lruList s with
        | Some l =>
            match LruList.getLru l with
            | Some lru =>
                match remove (CacheEntry.getKey lru) s with
                | (s', Normal _) => (s', Normal tt)
                | (s', Throw err) => (s', Throw err)
                end
            | None => (s, Throw TypeError)
            end
        | None => (s, Throw TypeError)
        end
      else (s, Normal tt)
  | None => (s, Normal tt)
  end.

Definition addEntry (k : string) (fn : nat) (ret : SetterResult) (now : Z)
    (s : State) : State * Completion PromiseRef :=
  let s0 := callSetter fn s in
  match ret with
  | NotThenable => (s0, Throw SetterResultNotPromise)
  | Thenable p =>
      match storeEntry k p now s0 with
      | (s5, Throw err) => (s5, Throw err)
      | (s5, Normal e) =>
          match evictOverflow s5 with
          | (s6, Normal _) => (registerRejection p k e s6, Normal p)
          | (s6, Throw err) => (s6, Throw err)
          end
      end
  end.

(** The two lazy instantiations at the head of [get]:
    [if( !this.cache ) this.cache = {};] and
    [if( !this.lruList && this.maxSize !== null ) this.lruList = new LruList();] *)
Definition lazyInit (s : State) : State :=
  let s1 := match cache s with
            | None => set_cache (Some JsObject.empty) s
            | Some _ => s
            end in
  match lruList s1, maxSize (cfg s1) with
  | None, Some _ => set_lruList (Some LruList.empty) s1
  | _, _ => s1
  end.

Definition get (k : string) (setter : SetterArg) (now : Z) (s : State)
  : State * Completion PromiseRef :=
  match setter with
  | NotAFunction => (s, Throw SetterNotFunction)
  | Fn fn ret =>
      let s2 := lazyInit s in
      let hit :=
        match cache s2 with
        | Some c =>
            match JsObject.lookup k c with
            | Some e =>
                if negb (CacheEntry.isExpired (maxAge (cfg s2)) now e)
                then Some e else None
            | None => None
            end
        | None => None
        end in
      match hit with
      | Some e =>
          (match lruList s2 with
           | Some l => set_lruList (Some (LruList.touch e l)) s2
           | None => s2
           end,
           Normal (CacheEntry.getPromise e))
      | None => addEntry k fn ret now s2
      end
  end.

Definition has (k : string) (now : Z) (s : State) : bool :=
  match cache s with
  | None => false
  | Some c =>
      match JsObject.lookup k c with
      | Some e => negb (CacheEntry.isExpired (maxAge (cfg s)) now e)
      | None => false
      end
  end.

(** The body of [for( var key in cache )]: the local variable [cache] keeps
    the object it was read from even after [this.cache] has been set to null,
    and the only property deleted while the loop runs is the one being
    visited, so every property of the snapshot is visited. *)
Fixpoint pruneLoop (age : Z) (now : Z) (props : JsObject.t CacheEntry.t)
    (s : State) : State * Completion unit :=
  match props with
  | [] => (s, Normal tt)
  | (_, e) :: rest =>
      if CacheEntry.isExpired (Some age) now e then
        match removeEntry e s with
        | (s', Normal _) => pruneLoop age now rest s'
        | (s', Throw err) => (s', Throw err)
        end
      else pruneLoop age now rest s
  end.

Definition prune (now : Z) (s : State) : State * Completion unit :=
  match cache s with
  | None => (s, Normal tt)
  | Some c =>
      match maxAge (cfg s) with
      | None => (s, Normal tt)
      | Some age => pruneLoop age now c s
      end
  end.

Definition getSize (now : Z) (s : State) : State * Completion Z :=
  match prune now s with
  | (s', Normal _) => (s', Normal (size s'))
  | (s', Throw err) => (s', Throw err)
  end.

Definition destroy (s : State) : State :=
  set_cache None (stopPruningInterval s).

(** *** Events delivered by the host *)

(** The promise [p] is rejected: the rejection callbacks registered on it run
    in registration order and are dropped from the pending ones.  An error
    thrown by a callback stays inside the promise chain. *)
Definition isFor (p : PromiseRef) (h : Handler) : bool :=
  Nat.eqb (hPromise h) p.

Definition dropHandlers (p : PromiseRef) (s : State) : State :=
  let h := host s in
  set_host (mkHost (nextOid h) (setterCalls h)
                   (filter (fun x => negb (isFor p x)) (handlers h))
                   (intervals h) (nextIntervalId h)) s.

Fixpoint runHandlers (hs : list Handler) (s : State) : State :=
  match hs with
  | [] => s
  | h :: rest => runHandlers rest (fst (removeIfEntry (hKey h) (hEntry h) s))
  end.

Definition rejectPromise (p : PromiseRef) (s : State) : State :=
  runHandlers (filter (isFor p) (handlers (host s))) (dropHandlers p s).

Arguments rejectPromise p%_nat s.

(** A tick of the pruning interval, if it is running. *)
Definition tick (now : Z) (s : State) : State :=
  match pruningIntervalId s with
  | Some _ => fst (prune now s)
  | None => s
  end.

(** *** Sequences of calls *)

Inductive Op :=
| OpGet (k : string) (setter : SetterArg) (now : Z)
| OpHas (k : string) (now : Z)
| OpRemove (k : string)
| OpGetSize (now : Z)
| OpClear
| OpPrune (now : Z)
| OpDestroy
| EvReject (p : PromiseRef)
| EvTick (now : Z).
Arguments EvReject p%_nat.

Definition step (s : State) (o : Op) : State :=
  match o with
  | OpGet k setter now => fst (get k setter now s)
  | OpHas _ _ => s
  | OpRemove k => fst (remove k s)
  | OpGetSize now => fst (getSize now s)
  | OpClear => clear s
  | OpPrune now => fst (prune now s)
  | OpDestroy => destroy s
  | EvReject p => rejectPromise p s
  | EvTick now => tick now s
  end.

Definition run (ops : list Op) (s : State) : State := fold_left step ops s.

Definition reachable (c : Config) (s : State) : Prop :=
  exists ops, s = run ops (init c).

(** *** Observations used in the statements *)

Definition entriesOf (s : State) : JsObject.t CacheEntry.t :=
  match cache s with Some c => c | None => [] end.

Definition lruOf (s : State) : LruList.t :=
  match lruList s with Some l => l | None => [] end.

Definition cardinality (s : State) : Z := Z.of_nat (List.length (entriesOf s)).

Definition stored (k : string) (s : State) : option CacheEntry.t :=
  JsObject.lookup k (entriesOf s).

(** ** The earlier version of the class ([PromiseCache] without LRU list)

    It has no [maxSize], no pruning and no identity guard on rejection; its
    [maxAge] is a JavaScript number that defaults to
    [Number.POSITIVE_INFINITY]. *)
Module V1.
Inductive JsNumber :=
| Finite (z : Z)
| PosInfinity.

Record CacheEntry := mkCacheEntry {
  promise : PromiseRef;
  entryTime : Z
}.

Arguments mkCacheEntry promise%_nat entryTime%_Z.

Definition getPromise (e : CacheEntry) : PromiseRef := promise e.
Definition getEntryTime (e : CacheEntry) : Z := entryTime e.

Record State := mkState {
  maxAge : JsNumber;
  cache : option (JsObject.t CacheEntry);
  setterCalls : list nat;
  handlers : list (PromiseRef * string)
}.

Definition init (age : JsNumber) : State := mkState age None [] [].

(** [now > cacheEntry.getEntryTime() + this.maxAge] *)
Definition isExpired (now : Z) (e : CacheEntry) (s : State) : bool :=
  match maxAge s with
  | Finite age => now >? getEntryTime e + age
  | PosInfinity => false
  end.

Definition get (k : string) (setter : SetterArg) (now : Z) (s : State)
  : State * Completion PromiseRef :=
  let c := match cache s with Some c => c | None => JsObject.empty end in
  let s1 := mkState (maxAge s) (Some c) (setterCalls s) (handlers s) in
  match setter with
  | NotAFunction => (s1, Throw SetterNotFunction)
  | Fn fn ret =>
      let hit :=
        match JsObject.lookup k c with
        | Some e => if negb (isExpired now e s1) then Some e else None
        | None => None
        end in
      match hit with
      | Some e => (s1, Normal (getPromise e))
      | None =>
          match ret with
          | Thenable p =>
              (mkState (maxAge s)
                       (Some (JsObject.assign k (mkCacheEntry p now) c))
                       (fn :: setterCalls s)
                       (handlers s ++ [(p, k)]),
               Normal p)
          | NotThenable =>
              (mkState (maxAge s) (Some c) (fn :: setterCalls s) (handlers s),
               Throw SetterResultNotPromise)
          end
      end
  end.

(** The rejection callback that [get] registers:
    [function() { delete me.cache[ key ]; }].  There is no comparison with
    the entry the call created. *)
Definition onRejected (k : string) (s : State) : State * Completion unit :=
  match cache s with
  | Some c =>
      (mkState (maxAge s) (Some (JsObject.delete k c)) (setterCalls s)
               (handlers s), Normal tt)
  | None => (s, Throw TypeError)
  end.

Fixpoint runHandlers (hs : list (PromiseRef * string)) (s : State) : State :=
  match hs with
  | [] => s
  | (_, k) :: rest => runHandlers rest (fst (onRejected k s))
  end.

(** The promise [p] is rejected: its callbacks run in registration order and
    are dropped from the pending ones. *)
Definition rejectPromise (p : PromiseRef) (s : State) : State :=
  runHandlers
    (filter (fun h => Nat.eqb (fst h) p) (handlers s))
    (mkState (maxAge s) (cache s) (setterCalls s)
             (filter (fun h => negb (Nat.eqb (fst h) p)) (handlers s))).
Arguments rejectPromise p%_nat s.
End V1.

(** ** Concrete runs *)

Local Open Scope string_scope.

Definition cfgAge100 : Config := mkConfig None (Some 100) (Some 1000).
Definition cfgSize (n : Z) : Config := mkConfig (Some n) None None.
Definition cfgSizeAge (n age : Z) : Config := mkConfig (Some n) (Some age) None.

Definition overwriteRun : list Op :=
  [OpGet "a" (Fn 1 (Thenable 10)) 0; OpGet "a" (Fn 1 (Thenable 11)) 150].

(** ** Predicates and observations used in the statements *)

(** The bookkeeping invariant of the data model: [size] is the number of keys
    of the map, the keys are those of the entries stored under them, the
    entries are distinct objects allocated by this host, and, when [maxSize]
    is configured, the nodes of the LRU list are exactly the stored entries. *)
Record consistent (s : State) : Prop := mkConsistent {
  con_size : size s = cardinality s;
  con_keys : NoDup (JsObject.keys (entriesOf s));
  con_key : forall k e, In (k, e) (entriesOf s) -> CacheEntry.key e = k;
  con_oids : NoDup (map CacheEntry.oid (JsObject.values (entriesOf s)));
  con_fresh : forall e, In e (JsObject.values (entriesOf s)) ->
                        (CacheEntry.oid e < nextOid (host s))%nat;
  con_lru : maxSize (cfg s) <> None ->
            Permutation (lruOf s) (JsObject.values (entriesOf s))
}.

(** The part of the state the invariant reads. *)
Definition view (s : State) :=
  (cfg s, entriesOf s, size s, lruOf s, nextOid (host s)).

(** [this.cache[ key ] === cacheEntry], false when there is no map. *)
Definition isCurrent (k : string) (e : CacheEntry.t) (s : State) : bool :=
  match stored k s with
  | Some cur => CacheEntry.same cur e
  | None => false
  end.

Definition cacheKeys (s : State) : list string := JsObject.keys (entriesOf s).

(** Keys of the LRU list, most recently used first. *)
Definition lruKeys (s : State) : list string := map CacheEntry.key (lruOf s).

Definition without (k : string) (l : list string) : list string :=
  filter (fun x => negb (String.eqb k x)) l.

Definition unexpired (maxAge : option Z) (now : Z)
    (kv : string * CacheEntry.t) : bool :=
  negb (CacheEntry.isExpired maxAge now (snd kv)).

(** The cache is in the state that [clear] leaves behind. *)
Definition cleared (s : State) : Prop :=
  cache s = None /\ lruList s = None /\ size s = 0 /\
  pruningIntervalId s = None.

(** The calls that neither replace an expired entry nor destroy a cache that
    holds entries. *)
Definition benign (s : State) (o : Op) : Prop :=
  match o with
  | OpGet k (Fn _ (Thenable _)) now => stored k s = None \/ has k now s = true
  | OpDestroy => entriesOf s = []
  | _ => True
  end.

(** The invariant of every state that calls and events can reach, with or
    without replaced entries and destroyed caches: the keys of the map are
    distinct and are those of the entries stored under them, [size] is not
    below the number of keys, the only interval that runs is the one whose
    id the cache holds, it runs only with [maxAge] and [pruneInterval]
    configured and a positive [size], and it does run whenever the map holds
    an entry that can expire. *)
Record sound (s : State) : Prop := mkSound {
  snd_keys : NoDup (JsObject.keys (entriesOf s));
  snd_key : forall k e, In (k, e) (entriesOf s) -> CacheEntry.key e = k;
  snd_size : cardinality s <= size s;
  snd_intervals :
    intervals (host s) =
      match pruningIntervalId s with Some id => [id] | None => [] end;
  snd_running :
    pruningIntervalId s <> None ->
    1 <= size s /\ maxAge (cfg s) <> None /\ pruneInterval (cfg s) <> None;
  snd_pruned :
    entriesOf s <> [] -> maxAge (cfg s) <> None ->
    pruneInterval (cfg s) <> None -> pruningIntervalId s <> None
}.

(** A second invariant of every reachable state: the stored entries are
    distinct objects allocated by this host and, when [maxSize] is
    configured, each of them is a node of the LRU list (which may hold
    further, stale nodes). *)
Record linked (s : State) : Prop := mkLinked {
  lnk_oids : NoDup (map CacheEntry.oid (JsObject.values (entriesOf s)));
  lnk_fresh : forall e, In e (JsObject.values (entriesOf s)) ->
                        (CacheEntry.oid e < nextOid (host s))%nat;
  lnk_nodes : maxSize (cfg s) <> None ->
              forall e, In e (JsObject.values (entriesOf s)) -> In e (lruOf s)
}.

(** The part of the state that [sound] reads. *)
Definition tview (s : State) :=
  (cfg s, entriesOf s, size s, pruningIntervalId s, intervals (host s)).

(** The number of stored entries that have not expired at time [now]. *)
Definition liveCount (now : Z) (s : State) : Z :=
  Z.of_nat (List.length (filter (unexpired (maxAge (cfg s)) now) (entriesOf s))).

Definition V1_stored (k : string) (s : V1.State) : option V1.CacheEntry :=
  match V1.cache s with
  | Some c => JsObject.lookup k c
  | None => None
  end.

(** Whether a [get] of the earlier version for [k] at time [now] is a hit. *)
Definition V1_hit (k : string) (now : Z) (s : V1.State) : bool :=
  match V1_stored k s with
  | Some e => negb (V1.isExpired now e s)
  | None => false
  end.

(** A call [get( key, setter )] whose setter returns a promise. *)
Record Insertion := mkInsertion {
  iKey : string;
  iFn : nat;
  iPromise : PromiseRef;
  iTime : Z
}.

Arguments mkInsertion iKey%_string iFn%_nat iPromise%_nat iTime%_Z.

Definition insertOp (x : Insertion) : Op :=
  OpGet (iKey x) (Fn (iFn x) (Thenable (iPromise x))) (iTime x).

(** The cache holds the keys [ks], inserted in this order and never hit. *)
Definition fifo (c : Config) (s : State) (ks : list string) : Prop :=
  consistent s /\ cfg s = c /\ cacheKeys s = ks /\ lruKeys s = rev ks.

(** ** Concrete states and entries *)

Definition boundaryState : State :=
  fst (get "a" (Fn 1 (Thenable 10)) 0 (init cfgAge100)).

Definition boundaryStateV1 : V1.State :=
  fst (V1.get "a" (Fn 1 (Thenable 10)) 0 (V1.init (V1.Finite 100))).

Definition oldEntry : CacheEntry.t := CacheEntry.make 0 "a" 10 0.
Definition newEntry : CacheEntry.t := CacheEntry.make 1 "a" 11 150.

Definition insA : Insertion := mkInsertion "a" 1 10 0.
Definition insB : Insertion := mkInsertion "b" 2 11 1.
Definition insC : Insertion := mkInsertion "c" 3 12 3.

(** * Lemmas *)

Local Open Scope list_scope.
Local Open Scope Z_scope.

(** Case analysis on the first [match] or [if] of the goal. *)
Ltac break_match :=
  match goal with
  | |- context [match ?x with _ => _ end] =>
      first [ is_var x; destruct x | let E := fresh "E" in destruct x eqn:E ]
  end.

Ltac break_all := repeat (break_match; cbn [fst snd] in *; try congruence).

(** ** JavaScript objects *)

Section JsObjectFacts.
Context {V : Type}.
Implicit Types (o : JsObject.t V) (k : string) (v : V).

Lemma lookup_assign_same k v o :
  JsObject.lookup k (JsObject.assign k v o) = Some v.
Proof.
  induction o as [|[k' v'] o IH]; cbn.
  - now rewrite String.eqb_refl.
  - destruct (String.eqb k k') eqn:E; cbn; rewrite E; auto.
Qed.

Lemma lookup_assign_other k k' v o :
  k <> k' ->
  JsObject.lookup k (JsObject.assign k' v o) = JsObject.lookup k o.
Proof.
  intros Hne. induction o as [|[k2 v2] o IH]; cbn.
  - destruct (String.eqb_spec k k'); congruence.
  - destruct (String.eqb_spec k' k2); cbn.
    + subst. destruct (String.eqb_spec k k2); congruence.
    + destruct (String.eqb_spec k k2); auto.
Qed.

Lemma lookup_delete_same k o :
  JsObject.lookup k (JsObject.delete k o) = None.
Proof.
  induction o as [|[k' v'] o IH]; cbn; auto.
  destruct (String.eqb k k') eqn:E; cbn; auto. now rewrite E.
Qed.

Lemma lookup_delete_other k k' o :
  k <> k' ->
  JsObject.lookup k (JsObject.delete k' o) = JsObject.lookup k o.
Proof.
  intros Hne. induction o as [|[k2 v2] o IH]; cbn; auto.
  destruct (String.eqb_spec k' k2); cbn.
  - subst. destruct (String.eqb_spec k k2); congruence.
  - destruct (String.eqb_spec k k2); auto.
Qed.

Lemma lookup_None_notin k o :
  JsObject.lookup k o = None <-> ~ In k (JsObject.keys o).
Proof.
  induction o as [|[k' v'] o IH]; cbn.
  - tauto.
  - destruct (String.eqb_spec k k'); subst.
    + split; [discriminate | intros H; exfalso; apply H; auto].
    + rewrite IH. intuition congruence.
Qed.

Lemma lookup_Some_in k v o :
  JsObject.lookup k o = Some v -> In (k, v) o.
Proof.
  induction o as [|[k' v'] o IH]; cbn; [discriminate|].
  destruct (String.eqb_spec k k'); subst.
  - intros [= ->]. auto.
  - auto.
Qed.

Lemma in_lookup k v o :
  NoDup (JsObject.keys o) -> In (k, v) o -> JsObject.lookup k o = Some v.
Proof.
  induction o as [|[k' v'] o IH]; cbn; [tauto|].
  intros Hnd [H|H].
  - inversion H; subst. now rewrite String.eqb_refl.
  - inversion Hnd; subst. destruct (String.eqb_spec k k'); subst.
    + exfalso. apply H2. change k' with (fst (k', v)). now apply in_map.
    + auto.
Qed.

Lemma assign_absent k v o :
  JsObject.lookup k o = None -> JsObject.assign k v o = o ++ [(k, v)].
Proof.
  induction o as [|[k' v'] o IH]; cbn; auto.
  destruct (String.eqb k k'); [discriminate|]. intros H. now rewrite IH.
Qed.

Lemma assign_present_length k v o v0 :
  JsObject.lookup k o = Some v0 ->
  List.length (JsObject.assign k v o) = List.length o.
Proof.
  induction o as [|[k' v'] o IH]; cbn; [discriminate|].
  destruct (String.eqb k k'); cbn; auto.
Qed.

Lemma delete_absent k o :
  ~ In k (JsObject.keys o) -> JsObject.delete k o = o.
Proof.
  induction o as [|[k' v'] o IH]; cbn; auto.
  intros H. destruct (String.eqb_spec k k'); subst.
  - exfalso. auto.
  - f_equal. auto.
Qed.
End JsObjectFacts.

(** ** Frame facts: what the helper methods leave alone *)

Lemma cfg_stopPruningInterval s : cfg (stopPruningInterval s) = cfg s.
Proof. unfold stopPruningInterval. now destruct (pruningIntervalId s). Qed.

Lemma cfg_startPruningInterval s : cfg (startPruningInterval s) = cfg s.
Proof. unfold startPruningInterval, setInterval. break_all; reflexivity. Qed.

Lemma cfg_clear s : cfg (clear s) = cfg s.
Proof. unfold clear. now rewrite cfg_stopPruningInterval. Qed.

Lemma cfg_removeEntry e s : cfg (fst (removeEntry e s)) = cfg s.
Proof. unfold removeEntry. break_all; now rewrite ?cfg_clear. Qed.

Lemma cfg_remove k s : cfg (fst (remove k s)) = cfg s.
Proof.
  unfold remove. break_all; auto.
  all: match goal with
       | E : removeEntry ?e ?s = _ |- _ =>
           pose proof (cfg_removeEntry e s) as H; rewrite E in H; exact H
       end.
Qed.

Lemma calls_stopPruningInterval s :
  setterCalls (host (stopPruningInterval s)) = setterCalls (host s).
Proof. unfold stopPruningInterval. now destruct (pruningIntervalId s). Qed.

Lemma calls_startPruningInterval s :
  setterCalls (host (startPruningInterval s)) = setterCalls (host s).
Proof. unfold startPruningInterval, setInterval. break_all; reflexivity. Qed.

Lemma calls_clear s : setterCalls (host (clear s)) = setterCalls (host s).
Proof. unfold clear. now rewrite calls_stopPruningInterval. Qed.

Lemma calls_removeEntry e s :
  setterCalls (host (fst (removeEntry e s))) = setterCalls (host s).
Proof. unfold removeEntry. break_all; now rewrite ?calls_clear. Qed.

Lemma calls_remove k s :
  setterCalls (host (fst (remove k s))) = setterCalls (host s).
Proof.
  unfold remove. break_all; auto.
  all: match goal with
       | E : removeEntry ?e ?s = _ |- _ =>
           pose proof (calls_removeEntry e s) as H; rewrite E in H; exact H
       end.
Qed.

(** ** [get]: the hit path and the insertion path *)

Ltac lazy_cases s :=
  destruct s as [[[?|] ? ?] [?|] ? ? [?|] ?]; reflexivity.

Lemma entriesOf_lazyInit s : entriesOf (lazyInit s) = entriesOf s.
Proof. lazy_cases s. Qed.

Lemma cache_lazyInit s : cache (lazyInit s) = Some (entriesOf s).
Proof. lazy_cases s. Qed.

Lemma lruOf_lazyInit s : lruOf (lazyInit s) = lruOf s.
Proof. lazy_cases s. Qed.

Lemma size_lazyInit s : size (lazyInit s) = size s.
Proof. lazy_cases s. Qed.

Lemma cfg_lazyInit s : cfg (lazyInit s) = cfg s.
Proof. lazy_cases s. Qed.

Lemma host_lazyInit s : host (lazyInit s) = host s.
Proof. lazy_cases s. Qed.

Lemma timer_lazyInit s : pruningIntervalId (lazyInit s) = pruningIntervalId s.
Proof. lazy_cases s. Qed.

Lemma get_hit k fn ret now s e :
  stored k s = Some e ->
  CacheEntry.isExpired (maxAge (cfg s)) now e = false ->
  get k (Fn fn ret) now s =
    (match lruList (lazyInit s) with
     | Some l => set_lruList (Some (LruList.touch e l)) (lazyInit s)
     | None => lazyInit s
     end, Normal (CacheEntry.getPromise e)).
Proof.
  intros Hst Hexp. unfold get, stored in *.
  rewrite cache_lazyInit, Hst, cfg_lazyInit, Hexp. reflexivity.
Qed.

Lemma get_miss k fn ret now s :
  match stored k s with
  | Some e => CacheEntry.isExpired (maxAge (cfg s)) now e = true
  | None => True
  end ->
  get k (Fn fn ret) now s = addEntry k fn ret now (lazyInit s).
Proof.
  intros H. unfold get, stored in *.
  rewrite cache_lazyInit, cfg_lazyInit.
  destruct (JsObject.lookup k (entriesOf s)); [now rewrite H | reflexivity].
Qed.

Lemma has_true_stored k now s :
  has k now s = true ->
  exists e, stored k s = Some e /\
            CacheEntry.isExpired (maxAge (cfg s)) now e = false.
Proof.
  unfold has, stored, entriesOf. destruct (cache s) as [c|]; [|discriminate].
  destruct (JsObject.lookup k c) as [e|]; [|discriminate].
  intros H. exists e. split; [reflexivity | now apply negb_true_iff].
Qed.

Lemma has_false_miss k now s :
  has k now s = false ->
  match stored k s with
  | Some e => CacheEntry.isExpired (maxAge (cfg s)) now e = true
  | None => True
  end.
Proof.
  unfold has, stored, entriesOf. destruct (cache s) as [c|]; cbn; auto.
  destruct (JsObject.lookup k c); auto. now apply negb_false_iff.
Qed.

Lemma calls_storeEntry k p now s :
  setterCalls (host (fst (storeEntry k p now s))) = setterCalls (host s).
Proof.
  unfold storeEntry, newCacheEntry. break_all.
  all: rewrite ?calls_startPruningInterval; reflexivity.
Qed.

Lemma calls_evictOverflow s :
  setterCalls (host (fst (evictOverflow s))) = setterCalls (host s).
Proof.
  unfold evictOverflow. break_all.
  all: match goal with
       | E : remove ?k ?s = _ |- _ =>
           pose proof (calls_remove k s) as H; rewrite E in H; exact H
       end.
Qed.

Lemma calls_addEntry k fn ret now s :
  setterCalls (host (fst (addEntry k fn ret now s))) = fn :: setterCalls (host s).
Proof.
  unfold addEntry. destruct ret as [p|]; [|reflexivity].
  pose proof (calls_storeEntry k p now (callSetter fn s)) as H1.
  destruct (storeEntry k p now (callSetter fn s)) as [s5 [e|err]]; cbn in *; auto.
  pose proof (calls_evictOverflow s5) as H2.
  destruct (evictOverflow s5) as [s6 [[]|err]]; cbn in *; congruence.
Qed.

Lemma get_hit_calls k fn ret now s e :
  stored k s = Some e ->
  CacheEntry.isExpired (maxAge (cfg s)) now e = false ->
  setterCalls (host (fst (get k (Fn fn ret) now s))) = setterCalls (host s).
Proof.
  intros Hst Hexp. rewrite (get_hit _ _ _ _ _ _ Hst Hexp). cbn [fst].
  rewrite <- (host_lazyInit s). now destruct (lruList (lazyInit s)).
Qed.

(** ** Expiration *)

Lemma gtb_false a b : a <= b -> (a >? b) = false.
Proof. intros H. rewrite Z.gtb_ltb. apply Z.ltb_ge. exact H. Qed.

Lemma gtb_true a b : a > b -> (a >? b) = true.
Proof. intros H. apply Z.gtb_gt. exact H. Qed.

Lemma isExpired_spec maxAge now e :
  CacheEntry.isExpired maxAge now e = true <->
  exists T, maxAge = Some T /\ now > CacheEntry.entryTime e + T.
Proof.
  unfold CacheEntry.isExpired. destruct maxAge as [T|].
  - rewrite Z.gtb_gt. split; [eauto | intros (T' & [= <-] & H); exact H].
  - split; [discriminate | intros (T' & [=] & _)].
Qed.

Lemma V1_get_hit k fn ret now s e T :
  V1.maxAge s = V1.Finite T -> V1_stored k s = Some e ->
  now <= V1.entryTime e + T ->
  snd (V1.get k (Fn fn ret) now s) = Normal (V1.promise e) /\
  V1.setterCalls (fst (V1.get k (Fn fn ret) now s)) = V1.setterCalls s.
Proof.
  unfold V1_stored, V1.get, V1.isExpired, V1.getEntryTime. intros Ha Hs Hle.
  destruct (V1.cache s) as [c|]; [|discriminate]. cbn. rewrite Hs, Ha.
  rewrite (gtb_false _ _ Hle).
  auto.
Qed.

Lemma V1_get_miss k fn ret now s e T :
  V1.maxAge s = V1.Finite T -> V1_stored k s = Some e ->
  now > V1.entryTime e + T ->
  V1.setterCalls (fst (V1.get k (Fn fn ret) now s)) = fn :: V1.setterCalls s.
Proof.
  unfold V1_stored, V1.get, V1.isExpired, V1.getEntryTime. intros Ha Hs Hgt.
  destruct (V1.cache s) as [c|]; [|discriminate]. cbn. rewrite Hs, Ha.
  rewrite (gtb_true _ _ Hgt).
  cbn. now destruct ret.
Qed.

(** C4 (amended).  With [maxAge = T], an entry inserted at time [t0] is a hit
    for a [get] at every time [t <= t0 + T] (the stored promise comes back and
    the setter is not invoked) and a miss that invokes the setter at every
    time [t > t0 + T]: [isExpired] is true iff [maxAge] is non-null and
    [now > insertedAt + maxAge], and false when [maxAge] is null.  This holds
    for the [isExpired] and [get] of the earlier version and for the [get] of
    the version with the LRU list. *)
Theorem C4_expiration_boundary
    (s : State) (s1 : V1.State) (k : string)
    (e : CacheEntry.t) (e1 : V1.CacheEntry)
    (T t0 t : Z) (fn : nat) (ret : SetterResult) :
  maxAge (cfg s) = Some T -> stored k s = Some e ->
  CacheEntry.entryTime e = t0 ->
  V1.maxAge s1 = V1.Finite T -> V1_stored k s1 = Some e1 ->
  V1.entryTime e1 = t0 ->
  (CacheEntry.isExpired (Some T) t e = true <-> t > t0 + T) /\
  CacheEntry.isExpired None t e = false /\
  (V1.isExpired t e1 s1 = true <-> t > t0 + T) /\
  (t <= t0 + T ->
     snd (get k (Fn fn ret) t s) = Normal (CacheEntry.promise e) /\
     setterCalls (host (fst (get k (Fn fn ret) t s))) = setterCalls (host s) /\
     snd (V1.get k (Fn fn ret) t s1) = Normal (V1.promise e1) /\
     V1.setterCalls (fst (V1.get k (Fn fn ret) t s1)) = V1.setterCalls s1) /\
  (t > t0 + T ->
     setterCalls (host (fst (get k (Fn fn ret) t s)))
       = fn :: setterCalls (host s) /\
     V1.setterCalls (fst (V1.get k (Fn fn ret) t s1))
       = fn :: V1.setterCalls s1).
Proof.
  intros Ha Hs Ht Ha1 Hs1 Ht1. subst t0.
  split; [|split; [|split; [|split]]].
  - cbn. apply Z.gtb_gt.
  - reflexivity.
  - unfold V1.isExpired, V1.getEntryTime. rewrite Ha1, Ht1. apply Z.gtb_gt.
  - intros Hle.
    assert (Hne : CacheEntry.isExpired (maxAge (cfg s)) t e = false).
    { rewrite Ha. cbn. apply gtb_false. lia. }
    rewrite (get_hit _ fn ret _ _ _ Hs Hne).
    pose proof (get_hit_calls _ fn ret _ _ _ Hs Hne) as Hc.
    rewrite (get_hit _ fn ret _ _ _ Hs Hne) in Hc.
    rewrite <- Ht1 in Hle.
    destruct (V1_get_hit k fn ret t s1 e1 T Ha1 Hs1 Hle) as [H1 H2].
    repeat split; auto.
  - intros Hgt.
    assert (Hex : CacheEntry.isExpired (maxAge (cfg s)) t e = true).
    { rewrite Ha. cbn. apply gtb_true. lia. }
    split.
    + rewrite get_miss by (now rewrite Hs).
      rewrite calls_addEntry. now rewrite host_lazyInit.
    + rewrite <- Ht1 in Hgt. eapply V1_get_miss; eauto.
Qed.

Lemma C4_expiration_boundary_witness :
  snd (get "a" (Fn 2 (Thenable 11)) 100 boundaryState) = Normal 10%nat /\
  setterCalls (host (fst (get "a" (Fn 2 (Thenable 11)) 101 boundaryState)))
    = [2; 1]%nat.
Proof.
  pose proof (C4_expiration_boundary boundaryState boundaryStateV1 "a"
                (CacheEntry.make 0 "a" 10 0) (V1.mkCacheEntry 10 0)
                100 0 100 2 (Thenable 11)
                eq_refl eq_refl eq_refl eq_refl eq_refl eq_refl)
    as (_ & _ & _ & Hhit & _).
  pose proof (C4_expiration_boundary boundaryState boundaryStateV1 "a"
                (CacheEntry.make 0 "a" 10 0) (V1.mkCacheEntry 10 0)
                100 0 101 2 (Thenable 11)
                eq_refl eq_refl eq_refl eq_refl eq_refl eq_refl)
    as (_ & _ & _ & _ & Hmiss).
  split.
  - apply Hhit. lia.
  - apply Hmiss. lia.
Defined.

(** Counterexample to C4 as stated, at [t = t0 + T]: an entry inserted at
    time 0 with [maxAge = 100] is still a hit at time 100, in both versions;
    the setter of that call is not invoked. *)
Lemma C4_counterexample :
  snd (get "a" (Fn 2 (Thenable 11)) 100 boundaryState) = Normal 10%nat /\
  setterCalls (host (fst (get "a" (Fn 2 (Thenable 11)) 100 boundaryState)))
    = [1%nat] /\
  snd (V1.get "a" (Fn 2 (Thenable 11)) 100 boundaryStateV1) = Normal 10%nat /\
  V1.setterCalls (fst (V1.get "a" (Fn 2 (Thenable 11)) 100 boundaryStateV1))
    = [1%nat] /\
  V1.isExpired 100 (V1.mkCacheEntry 10 0) boundaryStateV1 = false /\
  CacheEntry.isExpired (Some 100) 100 (CacheEntry.make 0 "a" 10 0) = false.
Proof. repeat split. Qed.

(** ** Overwriting an expired entry *)

(** C2 (code defect).  [size] is documented as the number of entries in the
    cache, but [addEntry] increments it also when the assignment
    [this.cache[ key ] = ...] replaces an expired entry: with [maxAge = 100],
    a [get] for "a" at time 0 and another at time 150 reach a state whose map
    has one key and whose [size] is 2. *)
Theorem C2_size_exceeds_cardinality_after_overwrite :
  reachable cfgAge100 (run overwriteRun (init cfgAge100)) /\
  JsObject.keys (entriesOf (run overwriteRun (init cfgAge100))) = ["a"] /\
  cardinality (run overwriteRun (init cfgAge100)) = 1 /\
  size (run overwriteRun (init cfgAge100)) = 2.
Proof. split; [now exists overwriteRun | repeat split]. Qed.

(** C3 (code defect).  [addEntry] pushes the fresh entry on the LRU list and
    never unlinks the entry it replaces: with [maxSize = 2] and
    [maxAge = 100], after the overwrite of "a" the replaced entry is still
    linked behind the fresh one, and the next insertion evicts by its key, so
    that the fresh entry for "a" is dropped while the stale node stays. *)
Theorem C3_overwrite_leaves_stale_lru_node :
  let s := run overwriteRun (init (cfgSizeAge 2 100)) in
  let s' := fst (get "b" (Fn 2 (Thenable 12)) 150 s) in
  stored "a" s = Some newEntry /\
  lruOf s = [newEntry; oldEntry] /\
  LruList.linked oldEntry (lruOf s) = true /\
  has "a" 150 s' = false /\
  JsObject.keys (entriesOf s') = ["b"] /\
  LruList.linked oldEntry (lruOf s') = true.
Proof. repeat split. Qed.

(** ** [destroy] and [clear] *)

(** C8 (code defect).  Neither [clear] nor [destroy] throws, and [getSize]
    after [clear] returns 0.  But [destroy] does not reset [size], so
    [getSize], documented to return the number of entries currently in the
    cache, returns the size from before [destroy]: 1 after one insertion
    followed by [destroy], although no entry is left. *)
Theorem C8_getSize_after_destroy :
  (forall s now, getSize now (clear s) = (clear s, Normal 0)) /\
  (forall s now, getSize now (destroy s) = (destroy s, Normal (size s))) /\
  let s := fst (get "a" (Fn 1 (Thenable 10)) 0 (init defaults)) in
  snd (getSize 1 (destroy s)) = Normal 1 /\
  cardinality (destroy s) = 0 /\
  snd (getSize 1 (destroy (destroy s))) = Normal 1.
Proof.
  split; [|split].
  - intros [cf ca sz [id|] l h] now; reflexivity.
  - intros [cf ca sz [id|] l h] now; reflexivity.
  - repeat split.
Qed.

(** C9 (code defect).  After the overwrite of an expired entry the counter
    is one too high, so the test [this.size === 1] of [removeEntry] fails when [prune]
    removes the only entry, which has expired: the map is left empty but not
    reset, [size] stays 1 and the pruning interval keeps running. *)
Theorem C9_prune_last_entry_after_overwrite :
  let s0 := run overwriteRun (init cfgAge100) in
  let s := fst (prune 300 s0) in
  entriesOf s0 = [("a", newEntry)] /\
  CacheEntry.isExpired (maxAge (cfg s0)) 300 newEntry = true /\
  snd (prune 300 s0) = Normal tt /\
  cache s = Some [] /\
  size s = 1 /\
  pruningIntervalId s = Some 1%nat /\
  intervals (host s) = [1%nat].
Proof. repeat split. Qed.

(** ** The bookkeeping invariant *)

Lemma consistent_view s s' : view s = view s' -> consistent s -> consistent s'.
Proof.
  unfold view. intros [= Hc He Hs Hl Hn] [H1 H2 H3 H4 H5 H6].
  constructor; unfold cardinality in *; rewrite <- ?Hc, <- ?He, <- ?Hs, <- ?Hl, <- ?Hn; auto.
Qed.

Lemma view_lazyInit s : view (lazyInit s) = view s.
Proof. lazy_cases s. Qed.

Lemma view_startPruningInterval s : view (startPruningInterval s) = view s.
Proof. unfold startPruningInterval, setInterval. break_all; reflexivity. Qed.

Lemma view_registerRejection p k e s : view (registerRejection p k e s) = view s.
Proof. reflexivity. Qed.

Lemma view_callSetter fn s : view (callSetter fn s) = view s.
Proof. reflexivity. Qed.

Lemma consistent_init c : consistent (init c).
Proof.
  constructor; cbn; auto using NoDup_nil; try tauto.
Qed.

(** *** Entries, keys and identities in a consistent state *)

Lemma stored_in s k e :
  consistent s -> (stored k s = Some e <-> In (k, e) (entriesOf s)).
Proof.
  intros Hc. split.
  - apply lookup_Some_in.
  - apply in_lookup, (con_keys _ Hc).
Qed.

Lemma value_in s e :
  consistent s -> In e (JsObject.values (entriesOf s)) ->
  In (CacheEntry.key e, e) (entriesOf s).
Proof.
  intros Hc Hin. apply in_map_iff in Hin as ([k e'] & He & Hin). cbn in He. subst e'.
  now rewrite (con_key _ Hc _ _ Hin).
Qed.

Lemma NoDup_map_inj {A B} (f : A -> B) (l : list A) x y :
  NoDup (map f l) -> In x l -> In y l -> f x = f y -> x = y.
Proof.
  induction l as [|a l IH]; cbn; [tauto|].
  intros Hnd Hx Hy Hf. inversion Hnd as [|? ? Hn Hnd']; subst.
  destruct Hx as [->|Hx], Hy as [->|Hy]; auto.
  - exfalso. apply Hn. rewrite Hf. now apply in_map.
  - exfalso. apply Hn. rewrite <- Hf. now apply in_map.
Qed.

Lemma same_iff_key s x y :
  consistent s ->
  In x (JsObject.values (entriesOf s)) -> In y (JsObject.values (entriesOf s)) ->
  CacheEntry.same x y = String.eqb (CacheEntry.key x) (CacheEntry.key y).
Proof.
  intros Hc Hx Hy. unfold CacheEntry.same.
  destruct (Nat.eqb_spec (CacheEntry.oid x) (CacheEntry.oid y)) as [Ho|Ho];
    destruct (String.eqb_spec (CacheEntry.key x) (CacheEntry.key y)) as [Hk|Hk]; auto.
  - exfalso. apply Hk. f_equal.
    eapply NoDup_map_inj; eauto using con_oids.
  - exfalso. apply Ho. f_equal.
    pose proof (value_in _ _ Hc Hx) as Hx'. pose proof (value_in _ _ Hc Hy) as Hy'.
    apply (stored_in _ _ _ Hc) in Hx', Hy'. congruence.
Qed.

Lemma delete_filter {V} k (o : JsObject.t V) :
  JsObject.delete k o = filter (fun kv => negb (String.eqb k (fst kv))) o.
Proof.
  induction o as [|[k' v] o IH]; cbn; auto.
  destruct (String.eqb k k'); cbn; now rewrite IH.
Qed.

Lemma values_delete_gen (o : JsObject.t CacheEntry.t) v :
  (forall k e, In (k, e) o ->
     CacheEntry.same v e = String.eqb (CacheEntry.key v) k) ->
  JsObject.values (JsObject.delete (CacheEntry.key v) o) =
  LruList.remove v (JsObject.values o).
Proof.
  unfold LruList.remove, JsObject.values.
  induction o as [|[k e] o IH]; intros H; cbn; auto.
  rewrite (H k e) by now left.
  destruct (String.eqb (CacheEntry.key v) k); cbn;
    rewrite IH by (intros; apply H; now right); reflexivity.
Qed.

Lemma values_delete s v :
  consistent s -> In v (JsObject.values (entriesOf s)) ->
  JsObject.values (JsObject.delete (CacheEntry.key v) (entriesOf s)) =
  LruList.remove v (JsObject.values (entriesOf s)).
Proof.
  intros Hc Hv. apply values_delete_gen. intros k e Hin.
  rewrite <- (con_key _ Hc _ _ Hin).
  apply (same_iff_key s); auto.
  now apply (in_map snd) in Hin.
Qed.

(** *** Effect of the removal path on the view *)

Lemma view_stopPruningInterval s : view (stopPruningInterval s) = view s.
Proof. unfold stopPruningInterval. now destruct (pruningIntervalId s). Qed.

Lemma view_clear s : view (clear s) = (cfg s, [], 0, [], nextOid (host s)).
Proof. unfold clear. now rewrite view_stopPruningInterval. Qed.

Lemma removeEntry_last e s :
  size s = 1 -> removeEntry e s = (clear s, Normal tt).
Proof. intros H. unfold removeEntry. now rewrite H. Qed.

Lemma removeEntry_other e s c :
  size s <> 1 -> cache s = Some c ->
  snd (removeEntry e s) = Normal tt /\
  view (fst (removeEntry e s)) =
    (cfg s, JsObject.delete (CacheEntry.key e) c, size s - 1,
     LruList.remove e (lruOf s), nextOid (host s)) /\
  host (fst (removeEntry e s)) = host s /\
  pruningIntervalId (fst (removeEntry e s)) = pruningIntervalId s /\
  (lruList (fst (removeEntry e s)) = None <-> lruList s = None).
Proof.
  intros Hsz Hc. unfold removeEntry.
  destruct (Z.eqb_spec (size s) 1) as [|_]; [contradiction|].
  destruct s as [cf ca sz ti [l|] h]; cbn in *; subst ca; cbn;
    repeat split; congruence.
Qed.

Lemma consistent_clear s : consistent (clear s).
Proof.
  pose proof (view_clear s) as Hv. unfold view in Hv.
  injection Hv as Hc He Hs Hl Hn.
  constructor; unfold cardinality; rewrite ?He, ?Hs, ?Hl; cbn;
    auto using NoDup_nil; tauto.
Qed.

Lemma Permutation_filter {A} (f : A -> bool) l l' :
  Permutation l l' -> Permutation (filter f l) (filter f l').
Proof.
  induction 1; cbn; auto.
  - destruct (f x); auto.
  - destruct (f x), (f y); auto. apply perm_swap.
  - eapply perm_trans; eauto.
Qed.

Lemma NoDup_map_filter {A B} (g : A -> B) (f : A -> bool) l :
  NoDup (map g l) -> NoDup (map g (filter f l)).
Proof.
  induction l as [|a l IH]; cbn; auto.
  intros Hnd. inversion Hnd as [|? ? Hn Hnd']; subst.
  destruct (f a); cbn; auto. constructor; auto.
  intros Hin. apply Hn. apply in_map_iff in Hin as (x & Hx & Hin).
  apply filter_In in Hin as [Hin _]. rewrite <- Hx. now apply in_map.
Qed.

Lemma remove_unlinked v l :
  ~ In (CacheEntry.oid v) (map CacheEntry.oid l) -> LruList.remove v l = l.
Proof.
  unfold LruList.remove, CacheEntry.same.
  induction l as [|a l IH]; cbn; auto. intros H.
  destruct (Nat.eqb_spec (CacheEntry.oid v) (CacheEntry.oid a)) as [E|E]; cbn.
  - exfalso. apply H. now left.
  - f_equal. apply IH. tauto.
Qed.

Lemma remove_length v l :
  NoDup (map CacheEntry.oid l) -> In v l ->
  S (List.length (LruList.remove v l)) = List.length l.
Proof.
  induction l as [|a l IH]; cbn; [tauto|].
  intros Hnd Hin. inversion Hnd as [|? ? Hn Hnd']; subst.
  unfold CacheEntry.same.
  destruct (Nat.eqb_spec (CacheEntry.oid v) (CacheEntry.oid a)) as [E|E]; cbn.
  - change (S (List.length (LruList.remove v l)) = S (List.length l)).
    rewrite remove_unlinked; congruence.
  - change (S (S (List.length (LruList.remove v l))) = S (List.length l)).
    f_equal. apply IH; auto. destruct Hin; congruence.
Qed.

Lemma consistent_delete s s' v :
  consistent s -> In v (JsObject.values (entriesOf s)) ->
  view s' = (cfg s, JsObject.delete (CacheEntry.key v) (entriesOf s),
             size s - 1, LruList.remove v (lruOf s), nextOid (host s)) ->
  consistent s'.
Proof.
  intros Hc Hv Hview. unfold view in Hview.
  injection Hview as Hcf He Hs Hl Hn.
  pose proof (values_delete s v Hc Hv) as Hvals.
  assert (Hsub : forall x, In x (JsObject.delete (CacheEntry.key v) (entriesOf s)) ->
                           In x (entriesOf s)).
  { intros x. rewrite delete_filter. intros Hx. now apply filter_In in Hx. }
  constructor; unfold cardinality; rewrite ?Hcf, ?He, ?Hs, ?Hl, ?Hn.
  - rewrite (con_size _ Hc). unfold cardinality.
    replace (List.length (JsObject.delete (CacheEntry.key v) (entriesOf s)))
      with (List.length (LruList.remove v (JsObject.values (entriesOf s))))
      by (rewrite <- Hvals; unfold JsObject.values; now rewrite length_map).
    pose proof (remove_length v _ (con_oids _ Hc) Hv) as Hlen.
    unfold JsObject.values in *. rewrite length_map in Hlen. lia.
  - rewrite delete_filter. apply NoDup_map_filter, (con_keys _ Hc).
  - intros k e Hin. apply (con_key _ Hc). auto.
  - rewrite Hvals. apply NoDup_map_filter, (con_oids _ Hc).
  - intros e Hin. apply (con_fresh _ Hc). rewrite Hvals in Hin.
    now apply filter_In in Hin.
  - intros Hm. rewrite Hvals. apply Permutation_filter, (con_lru _ Hc Hm).
Qed.

Lemma cache_entriesOf s c : cache s = Some c -> entriesOf s = c.
Proof. unfold entriesOf. now intros ->. Qed.

Lemma stored_cache s k e :
  stored k s = Some e -> cache s = Some (entriesOf s).
Proof. unfold stored, entriesOf. destruct (cache s); [auto | discriminate]. Qed.

Lemma remove_absent k s :
  stored k s = None -> fst (remove k s) = s /\ exists r, snd (remove k s) = Normal r.
Proof.
  unfold stored, entriesOf, remove. destruct (cache s) as [c|].
  - intros ->. cbn. eauto.
  - cbn. eauto.
Qed.

Lemma remove_present k s e :
  stored k s = Some e ->
  fst (remove k s) = fst (removeEntry e s) /\
  (snd (removeEntry e s) = Normal tt -> snd (remove k s) = Normal RetUndefined).
Proof.
  intros Hst. unfold remove. rewrite (stored_cache _ _ _ Hst).
  unfold stored in Hst. rewrite Hst.
  destruct (removeEntry e s) as [s' [[]|err]]; cbn; split; auto; discriminate.
Qed.

Lemma consistent_removeEntry s e :
  consistent s -> In e (JsObject.values (entriesOf s)) ->
  consistent (fst (removeEntry e s)) /\ snd (removeEntry e s) = Normal tt.
Proof.
  intros Hc Hin. destruct (Z.eq_dec (size s) 1) as [H1|H1].
  - rewrite removeEntry_last by auto. split; [apply consistent_clear | reflexivity].
  - assert (Hca : cache s = Some (entriesOf s)).
    { unfold entriesOf in *. destruct (cache s); [reflexivity | contradiction]. }
    destruct (removeEntry_other e s _ H1 Hca) as (Hn & Hv & _).
    split; [|exact Hn]. eapply consistent_delete; eauto.
Qed.

Lemma consistent_remove k s :
  consistent s ->
  consistent (fst (remove k s)) /\ exists r, snd (remove k s) = Normal r.
Proof.
  intros Hc. destruct (stored k s) as [e|] eqn:Hst.
  - destruct (remove_present _ _ _ Hst) as [Hf Hs].
    assert (Hin : In e (JsObject.values (entriesOf s))).
    { apply lookup_Some_in in Hst. now apply (in_map snd) in Hst. }
    destruct (consistent_removeEntry s e Hc Hin) as [H1 H2].
    rewrite Hf. split; eauto.
  - destruct (remove_absent _ _ Hst) as [-> Hr]. auto.
Qed.

(** *** Effect of the insertion path on the view *)

Lemma storeEntry_view k p now s c :
  cache s = Some c ->
  let e := CacheEntry.make (nextOid (host s)) k p now in
  snd (storeEntry k p now s) = Normal e /\
  view (fst (storeEntry k p now s)) =
    (cfg s, JsObject.assign k e c, size s + 1,
     match lruList s with Some l => e :: l | None => [] end,
     S (nextOid (host s))) /\
  lruList (fst (storeEntry k p now s)) =
    option_map (LruList.pushMru e) (lruList s) /\
  handlers (host (fst (storeEntry k p now s))) = handlers (host s).
Proof.
  intros Hc e. unfold storeEntry, newCacheEntry. cbn [cache set_host]. rewrite Hc.
  cbn [fst snd]. split; [reflexivity|].
  split; [rewrite view_startPruningInterval|split].
  - destruct s as [cf ca sz ti [l|] h]; reflexivity.
  - unfold startPruningInterval, setInterval.
    destruct s as [cf ca sz [ti|] [l|] h]; cbn; break_all; reflexivity.
  - unfold startPruningInterval, setInterval.
    destruct s as [cf ca sz [ti|] [l|] h]; cbn; break_all; reflexivity.
Qed.

Lemma evictOverflow_fits s :
  (forall m, maxSize (cfg s) = Some m -> size s <= m) ->
  evictOverflow s = (s, Normal tt).
Proof.
  intros H. unfold evictOverflow. destruct (maxSize (cfg s)) as [m|]; auto.
  now rewrite (gtb_false _ _ (H m eq_refl)).
Qed.

Lemma evictOverflow_over s m l v :
  maxSize (cfg s) = Some m -> size s > m ->
  lruList s = Some l -> LruList.getLru l = Some v ->
  fst (evictOverflow s) = fst (remove (CacheEntry.key v) s) /\
  (forall r, snd (remove (CacheEntry.key v) s) = Normal r ->
             snd (evictOverflow s) = Normal tt).
Proof.
  intros Hm Hgt Hl Hv. unfold evictOverflow.
  rewrite Hm, (gtb_true _ _ Hgt), Hl, Hv. unfold CacheEntry.getKey.
  destruct (remove (CacheEntry.key v) s) as [s' [r|err]]; cbn; split; auto.
  intros r [=].
Qed.

Lemma getLru_cons e l :
  LruList.getLru (e :: l) =
  match LruList.getLru l with Some v => Some v | None => Some e end.
Proof.
  unfold LruList.getLru. revert e. induction l as [|a l IH]; intros e; auto.
  change (last (map Some (e :: a :: l)) None)
    with (last (map Some (a :: l)) None).
  rewrite (IH a). now destruct (last (map Some l) None).
Qed.

Lemma getLru_in l v : LruList.getLru l = Some v -> In v l.
Proof.
  induction l as [|a l IH]; [discriminate|].
  rewrite getLru_cons. destruct (LruList.getLru l) as [v'|].
  - intros [= ->]. right. auto.
  - intros [= ->]. now left.
Qed.

Lemma getLru_nonempty l : l <> [] -> exists v, LruList.getLru l = Some v.
Proof.
  destruct l as [|a l]; [congruence|]. intros _. rewrite getLru_cons.
  destruct (LruList.getLru l); eauto.
Qed.

Lemma NoDup_snoc {A} (l : list A) a : NoDup l -> ~ In a l -> NoDup (l ++ [a]).
Proof.
  intros Hnd Hn. apply (Permutation_NoDup (Permutation_cons_append l a)).
  now constructor.
Qed.

Lemma consistent_store s s5 k e L :
  consistent s -> stored k s = None ->
  CacheEntry.key e = k -> CacheEntry.oid e = nextOid (host s) ->
  view s5 = (cfg s, entriesOf s ++ [(k, e)], size s + 1, L, S (nextOid (host s))) ->
  (maxSize (cfg s) <> None -> L = e :: lruOf s) ->
  consistent s5.
Proof.
  intros Hc Hst Hk Ho Hview HL. unfold view in Hview.
  injection Hview as Hcf He Hs Hl Hn.
  assert (Hfresh : ~ In (CacheEntry.oid e) (map CacheEntry.oid (JsObject.values (entriesOf s)))).
  { intros Hin. apply in_map_iff in Hin as (x & Hx & Hin).
    pose proof (con_fresh _ Hc _ Hin). lia. }
  constructor; unfold cardinality, JsObject.keys, JsObject.values in *;
    rewrite ?Hcf, ?He, ?Hs, ?Hn, ?map_app; cbn [map fst snd].
  - rewrite (con_size _ Hc), length_app. unfold cardinality. cbn. lia.
  - apply NoDup_snoc; [apply (con_keys _ Hc) | now apply lookup_None_notin].
  - intros k' e' Hin. apply in_app_or in Hin as [Hin|[[= <- <-]|[]]]; auto.
    eapply con_key; eauto.
  - apply NoDup_snoc; [apply (con_oids _ Hc) | exact Hfresh].
  - intros x Hin. apply in_app_or in Hin as [Hin|[<-|[]]].
    + pose proof (con_fresh _ Hc _ Hin). lia.
    + lia.
  - intros Hm. rewrite Hl, (HL Hm).
    eapply perm_trans; [apply perm_skip, (con_lru _ Hc Hm)|].
    apply Permutation_cons_append.
Qed.

Arguments storeEntry : simpl never.
Arguments evictOverflow : simpl never.
Arguments addEntry : simpl never.
Arguments removeEntry : simpl never.
Arguments remove : simpl never.
Arguments get : simpl never.
Arguments lazyInit : simpl never.
Arguments startPruningInterval : simpl never.
Arguments stopPruningInterval : simpl never.
Arguments clear : simpl never.

Section Insertion.
Variables (s : State) (k : string) (fn : nat) (p : PromiseRef) (now : Z).
Hypothesis Hcon : consistent s.
Hypothesis Habsent : stored k s = None.

Let e := CacheEntry.make (nextOid (host s)) k p now.
Let r := get k (Fn fn (Thenable p)) now s.

(** The state after the statements of [addEntry] that store the entry. *)
Lemma insertion_stored :
  exists s5,
    storeEntry k p now (callSetter fn (lazyInit s)) = (s5, Normal e) /\
    r = match evictOverflow s5 with
        | (s6, Normal _) => (registerRejection p k e s6, Normal p)
        | (s6, Throw err) => (s6, Throw err)
        end /\
    consistent s5 /\
    view s5 = (cfg s, entriesOf s ++ [(k, e)], size s + 1,
               match lruList (lazyInit s) with
               | Some l => e :: l
               | None => []
               end, S (nextOid (host s))) /\
    (maxSize (cfg s) <> None -> lruList s5 = Some (e :: lruOf s)).
Proof.
  assert (Hca : cache (callSetter fn (lazyInit s)) = Some (entriesOf s))
    by apply cache_lazyInit.
  destruct (storeEntry_view k p now _ _ Hca) as (Hsnd & Hview & Hl & _).
  change (host (callSetter fn (lazyInit s)))
    with (mkHost (nextOid (host (lazyInit s)))
                 (fn :: setterCalls (host (lazyInit s)))
                 (handlers (host (lazyInit s)))
                 (intervals (host (lazyInit s)))
                 (nextIntervalId (host (lazyInit s)))) in Hsnd, Hview, Hl.
  cbn [nextOid] in Hsnd, Hview, Hl.
  rewrite host_lazyInit in Hsnd, Hview, Hl. fold e in Hsnd, Hview, Hl.
  change (cfg (callSetter fn (lazyInit s))) with (cfg (lazyInit s)) in Hview.
  change (size (callSetter fn (lazyInit s))) with (size (lazyInit s)) in Hview.
  change (lruList (callSetter fn (lazyInit s))) with (lruList (lazyInit s)) in Hview, Hl.
  rewrite cfg_lazyInit, size_lazyInit, assign_absent in Hview by exact Habsent.
  exists (fst (storeEntry k p now (callSetter fn (lazyInit s)))).
  assert (HL : maxSize (cfg s) <> None ->
               lruList (lazyInit s) = Some (lruOf s)).
  { intros Hm. destruct s as [[[m|] ma pi] [c|] sz ti [l|] h];
      cbn in Hm; try congruence; reflexivity. }
  split; [|split; [|split; [|split]]].
  - rewrite <- Hsnd. now destruct (storeEntry k p now (callSetter fn (lazyInit s))).
  - unfold r. rewrite get_miss by (now rewrite Habsent). unfold addEntry.
    destruct (storeEntry k p now (callSetter fn (lazyInit s))) as [s5 r5].
    cbn [fst snd] in *. now subst r5.
  - eapply consistent_store; eauto; try reflexivity.
    intros Hm. now rewrite (HL Hm).
  - exact Hview.
  - intros Hm. rewrite Hl, (HL Hm). reflexivity.
Qed.
End Insertion.

Lemma delete_app {V} k (a b : JsObject.t V) :
  JsObject.delete k (a ++ b) = JsObject.delete k a ++ JsObject.delete k b.
Proof. rewrite !delete_filter. apply filter_app. Qed.

Lemma view_cfg s s' a b c d : view s' = (cfg s, a, b, c, d) -> cfg s' = cfg s.
Proof. unfold view. now intros [= -> _ _ _ _]. Qed.

Lemma registerRejection_obs p k e s :
  cfg (registerRejection p k e s) = cfg s /\
  entriesOf (registerRejection p k e s) = entriesOf s /\
  size (registerRejection p k e s) = size s /\
  lruOf (registerRejection p k e s) = lruOf s /\
  nextOid (host (registerRejection p k e s)) = nextOid (host s) /\
  (consistent s -> consistent (registerRejection p k e s)).
Proof.
  repeat (split; [reflexivity|]). apply consistent_view. reflexivity.
Qed.

(** Insertion of a key that is not stored, when the new size fits. *)
Lemma get_insert_fits s k fn p now :
  consistent s -> stored k s = None ->
  (forall m, maxSize (cfg s) = Some m -> size s + 1 <= m) ->
  let e := CacheEntry.make (nextOid (host s)) k p now in
  let r := get k (Fn fn (Thenable p)) now s in
  snd r = Normal p /\
  consistent (fst r) /\
  cfg (fst r) = cfg s /\
  entriesOf (fst r) = entriesOf s ++ [(k, e)] /\
  size (fst r) = size s + 1 /\
  nextOid (host (fst r)) = S (nextOid (host s)) /\
  (maxSize (cfg s) <> None -> lruOf (fst r) = e :: lruOf s).
Proof.
  intros Hc Hst Hfit e r.
  destruct (insertion_stored s k fn p now Hc Hst) as (s5 & _ & Hr & Hc5 & Hv5 & Hl5).
  fold e in Hr, Hv5, Hl5. fold r in Hr.
  pose proof (view_cfg _ _ _ _ _ _ Hv5) as Hcfg5.
  assert (Hsz5 : size s5 = size s + 1) by (unfold view in Hv5; congruence).
  rewrite evictOverflow_fits in Hr
    by (intros m Hm; rewrite Hsz5; apply Hfit; congruence).
  rewrite Hr. cbn [fst snd].
  destruct (registerRejection_obs p k e s5) as (Hv1 & Hv2 & Hv3 & Hv4 & Hv6 & Hv7).
  unfold view in Hv5. injection Hv5 as Hw1 Hw2 Hw3 Hw4 Hw6.
  split; [reflexivity|]. split; [auto|].
  repeat (split; [congruence|]).
  intros Hm. rewrite Hv4. unfold lruOf. now rewrite (Hl5 Hm).
Qed.

(** Insertion of a key that is not stored, when the new size exceeds
    [maxSize]: the node at the LRU end is evicted. *)
Lemma get_insert_evict s k fn p now m :
  consistent s -> stored k s = None ->
  maxSize (cfg s) = Some m -> 1 <= m -> size s + 1 > m ->
  let e := CacheEntry.make (nextOid (host s)) k p now in
  let r := get k (Fn fn (Thenable p)) now s in
  exists v,
    LruList.getLru (lruOf s) = Some v /\
    stored (CacheEntry.key v) s = Some v /\
    CacheEntry.key v <> k /\
    snd r = Normal p /\
    consistent (fst r) /\
    cfg (fst r) = cfg s /\
    entriesOf (fst r) = JsObject.delete (CacheEntry.key v) (entriesOf s) ++ [(k, e)] /\
    size (fst r) = size s /\
    nextOid (host (fst r)) = S (nextOid (host s)) /\
    lruOf (fst r) = e :: LruList.remove v (lruOf s).
Proof.
  intros Hc Hst Hm H1 Hover e r.
  assert (Hmne : maxSize (cfg s) <> None) by congruence.
  destruct (insertion_stored s k fn p now Hc Hst) as (s5 & _ & Hr & Hc5 & Hv5 & Hl5).
  fold e in Hr, Hv5, Hl5. fold r in Hr. specialize (Hl5 Hmne).
  pose proof (view_cfg _ _ _ _ _ _ Hv5) as Hcfg5.
  unfold view in Hv5. injection Hv5 as _ He5 Hsz5 _ Hn5.
  (* the list is not empty *)
  pose proof (Permutation_length (con_lru _ Hc Hmne)) as Hlen.
  pose proof (con_size _ Hc) as Hsz. unfold cardinality, JsObject.values in *.
  rewrite length_map in Hlen.
  destruct (getLru_nonempty (lruOf s)) as [v Hv].
  { intros E. rewrite E in Hlen. cbn in Hlen. lia. }
  exists v.
  assert (Hvin : In v (JsObject.values (entriesOf s))).
  { eapply Permutation_in; [apply (con_lru _ Hc Hmne)|]. now apply getLru_in. }
  pose proof (value_in _ _ Hc Hvin) as Hkv.
  assert (Hne : CacheEntry.key v <> k).
  { intros E. apply lookup_None_notin in Hst. apply Hst.
    rewrite <- E. now apply (in_map fst) in Hkv. }
  assert (Hst5 : stored (CacheEntry.key v) s5 = Some v).
  { apply (stored_in _ _ _ Hc5). rewrite He5. apply in_or_app. now left. }
  assert (Hlru5 : LruList.getLru (e :: lruOf s) = Some v)
    by (now rewrite getLru_cons, Hv).
  destruct (evictOverflow_over s5 m (e :: lruOf s) v
              ltac:(congruence) ltac:(lia) Hl5 Hlru5) as [Hf Hs].
  destruct (remove_present _ _ _ Hst5) as [Hf' Hs'].
  assert (Hsz1 : size s5 <> 1) by lia.
  destruct (removeEntry_other v s5 _ Hsz1 (stored_cache _ _ _ Hst5))
    as (Hn & Hview & Hh & _).
  specialize (Hs' Hn). specialize (Hs _ Hs').
  destruct (evictOverflow s5) as [s6 r6]. cbn [fst snd] in *. subst r6 s6.
  rewrite <- Hf' in Hview, Hh.
  assert (Hrem : LruList.remove v (e :: lruOf s) = e :: LruList.remove v (lruOf s)).
  { unfold LruList.remove at 1. cbn [filter].
    replace (CacheEntry.same v e) with false; [reflexivity|].
    symmetry. apply Nat.eqb_neq. cbn.
    pose proof (con_fresh _ Hc _ Hvin). lia. }
  assert (Hdel : JsObject.delete (CacheEntry.key v) (entriesOf s ++ [(k, e)])
                 = JsObject.delete (CacheEntry.key v) (entriesOf s) ++ [(k, e)]).
  { rewrite delete_app. f_equal. cbn.
    destruct (String.eqb_spec (CacheEntry.key v) k); [contradiction | reflexivity]. }
  unfold view in Hview. injection Hview as Hw1 Hw2 Hw3 Hw4 Hw5.
  rewrite Hr. cbn [fst snd].
  destruct (registerRejection_obs p k e (fst (remove (CacheEntry.key v) s5)))
    as (Hv1 & Hv2 & Hv3 & Hv4 & Hv6 & Hv7).
  rewrite Hv1, Hv2, Hv3, Hv4, Hv6.
  split; [exact Hv|]. split; [now apply (stored_in _ _ _ Hc)|].
  split; [exact Hne|]. split; [reflexivity|].
  split; [apply Hv7, consistent_remove, Hc5|].
  split; [congruence|]. split; [rewrite Hw2, He5; exact Hdel|].
  split; [lia|]. split; [congruence|].
  rewrite Hw4. unfold lruOf at 1. rewrite Hl5. exact Hrem.
Qed.

(** *** A hit in a consistent state *)

Lemma touch_linked e l :
  NoDup (map CacheEntry.oid l) -> In e l ->
  LruList.touch e l = e :: LruList.remove e l /\
  Permutation (e :: LruList.remove e l) l.
Proof.
  intros Hnd Hin. split.
  - unfold LruList.touch, LruList.linked.
    replace (existsb (CacheEntry.same e) l) with true; [reflexivity|].
    symmetry. apply existsb_exists. exists e. split; [exact Hin|].
    apply Nat.eqb_refl.
  - induction l as [|a l IH]; [contradiction|].
    inversion Hnd as [|? ? Hn Hnd']; subst.
    unfold LruList.remove. cbn [filter]. fold (LruList.remove e l).
    unfold CacheEntry.same.
    destruct (Nat.eqb_spec (CacheEntry.oid e) (CacheEntry.oid a)) as [E|E]; cbn [negb].
    + assert (e = a).
      { eapply (NoDup_map_inj CacheEntry.oid (a :: l)); cbn; eauto. }
      subst a. rewrite remove_unlinked by exact Hn. reflexivity.
    + destruct Hin as [->|Hin]; [congruence|].
      eapply perm_trans; [apply perm_swap|]. apply perm_skip. auto.
Qed.

Lemma consistent_set_lruList s l :
  consistent s ->
  (maxSize (cfg s) <> None -> Permutation l (JsObject.values (entriesOf s))) ->
  consistent (set_lruList (Some l) s).
Proof.
  intros [H1 H2 H3 H4 H5 H6] Hp. destruct s as [cf ca sz ti lr h].
  constructor; auto.
Qed.

Lemma get_hit_consistent s k fn ret now e :
  consistent s -> stored k s = Some e ->
  CacheEntry.isExpired (maxAge (cfg s)) now e = false ->
  let r := get k (Fn fn ret) now s in
  snd r = Normal (CacheEntry.promise e) /\
  consistent (fst r) /\
  cfg (fst r) = cfg s /\
  entriesOf (fst r) = entriesOf s /\
  size (fst r) = size s /\
  host (fst r) = host s /\
  (maxSize (cfg s) <> None -> lruOf (fst r) = e :: LruList.remove e (lruOf s)).
Proof.
  intros Hc Hst Hexp r. unfold r. rewrite (get_hit _ _ _ _ _ _ Hst Hexp).
  cbn [fst snd].
  assert (Hin : maxSize (cfg s) <> None -> In e (lruOf s)).
  { intros Hm. eapply Permutation_in; [symmetry; apply (con_lru _ Hc Hm)|].
    apply lookup_Some_in in Hst. now apply (in_map snd) in Hst. }
  assert (Hnd : maxSize (cfg s) <> None -> NoDup (map CacheEntry.oid (lruOf s))).
  { intros Hm. eapply Permutation_NoDup; [|apply (con_oids _ Hc)].
    apply Permutation_map. symmetry. apply (con_lru _ Hc Hm). }
  pose proof (entriesOf_lazyInit s) as He. pose proof (size_lazyInit s) as Hs.
  pose proof (cfg_lazyInit s) as Hcf. pose proof (host_lazyInit s) as Hh.
  pose proof (lruOf_lazyInit s) as Hl.
  destruct (lruList (lazyInit s)) as [l|] eqn:El.
  - assert (l = lruOf s) by (unfold lruOf in Hl at 1; now rewrite El in Hl). subst l.
    split; [reflexivity|]. split.
    + apply consistent_set_lruList.
      * eapply consistent_view; [|exact Hc]. symmetry. apply view_lazyInit.
      * rewrite Hcf, He. intros Hm.
        destruct (touch_linked e (lruOf s) (Hnd Hm) (Hin Hm)) as [-> Hp].
        eapply perm_trans; [exact Hp | apply (con_lru _ Hc Hm)].
    + repeat (split; [assumption|]).
      intros Hm. unfold lruOf at 1. cbn [lruList set_lruList].
      now destruct (touch_linked e (lruOf s) (Hnd Hm) (Hin Hm)) as [-> _].
  - split; [reflexivity|]. split; [eapply consistent_view; [|exact Hc]; symmetry; apply view_lazyInit|].
    repeat (split; [assumption|]).
    intros Hm. exfalso. specialize (Hin Hm). rewrite <- Hl in Hin.
    unfold lruOf in Hin. now rewrite El in Hin.
Qed.

(** ** Single flight *)

(** Without [maxSize] nothing is evicted: a miss stores its entry, whatever
    the state. *)
Lemma get_miss_unbounded s k fn p now :
  has k now s = false -> maxSize (cfg s) = None ->
  let e := CacheEntry.make (nextOid (host s)) k p now in
  let r := get k (Fn fn (Thenable p)) now s in
  snd r = Normal p /\ cfg (fst r) = cfg s /\ stored k (fst r) = Some e.
Proof.
  intros Hhas Hm e r.
  pose proof (has_false_miss _ _ _ Hhas) as Hmiss.
  unfold r. rewrite (get_miss _ _ _ _ _ Hmiss). unfold addEntry.
  assert (Hca : cache (callSetter fn (lazyInit s)) = Some (entriesOf s))
    by apply cache_lazyInit.
  destruct (storeEntry_view k p now _ _ Hca) as (Hsnd & Hview & _).
  change (nextOid (host (callSetter fn (lazyInit s))))
    with (nextOid (host (lazyInit s))) in Hsnd, Hview.
  change (cfg (callSetter fn (lazyInit s))) with (cfg (lazyInit s)) in Hview.
  rewrite host_lazyInit, cfg_lazyInit in *. fold e in Hsnd, Hview.
  destruct (storeEntry k p now (callSetter fn (lazyInit s))) as [s5 r5].
  cbn [fst snd] in *. subst r5.
  unfold view in Hview. injection Hview as Hcfg He _ _ _.
  rewrite evictOverflow_fits by (intros m Hm'; congruence).
  cbn [fst snd]. split; [reflexivity|]. split; [exact Hcfg|].
  unfold stored.
  change (entriesOf (registerRejection p k e s5)) with (entriesOf s5).
  rewrite He. apply lookup_assign_same.
Qed.




(** ** Rejection and the stale-entry guard *)

Lemma removeIfEntry_stale k e s :
  isCurrent k e s = false -> removeIfEntry k e s = (s, Normal tt).
Proof.
  unfold isCurrent, stored, entriesOf, removeIfEntry.
  destruct (cache s) as [c|]; [|reflexivity].
  destruct (JsObject.lookup k c) as [cur|]; [|reflexivity].
  now intros ->.
Qed.

Lemma removeIfEntry_current k e s :
  isCurrent k e s = true ->
  fst (removeIfEntry k e s) = fst (remove k s).
Proof.
  unfold isCurrent, stored, entriesOf, removeIfEntry.
  destruct (cache s) as [c|]; [|discriminate].
  destruct (JsObject.lookup k c) as [cur|]; [|discriminate].
  intros ->. now destruct (remove k s) as [s' [r|err]].
Qed.

Lemma runHandlers_stale hs s :
  (forall h, In h hs -> isCurrent (hKey h) (hEntry h) s = false) ->
  runHandlers hs s = s.
Proof.
  induction hs as [|h hs IH]; intros H; cbn; [reflexivity|].
  rewrite removeIfEntry_stale by (apply H; now left). cbn.
  apply IH. intros h' Hin. apply H. now right.
Qed.

(** ** A setter that does not return a promise *)




(** ** The frame of [destroy] *)


(** ** LRU order at the level of keys *)

Lemma without_notin k l : ~ In k l -> without k l = l.
Proof.
  unfold without. induction l as [|a l IH]; cbn; auto. intros H.
  destruct (String.eqb_spec k a); cbn.
  - exfalso. apply H. now left.
  - f_equal. apply IH. tauto.
Qed.

Lemma without_in k x l : In x (without k l) <-> In x l /\ x <> k.
Proof.
  unfold without. rewrite filter_In.
  destruct (String.eqb_spec k x); cbn; intuition congruence.
Qed.

Lemma keys_delete {V} k (o : JsObject.t V) :
  JsObject.keys (JsObject.delete k o) = without k (JsObject.keys o).
Proof.
  unfold JsObject.keys, without. induction o as [|[k' v] o IH]; cbn; auto.
  destruct (String.eqb k k'); cbn; now rewrite IH.
Qed.

Lemma keys_remove v l :
  (forall x, In x l ->
     CacheEntry.same v x = String.eqb (CacheEntry.key v) (CacheEntry.key x)) ->
  map CacheEntry.key (LruList.remove v l)
    = without (CacheEntry.key v) (map CacheEntry.key l).
Proof.
  unfold LruList.remove, without. induction l as [|a l IH]; intros H; cbn; auto.
  rewrite (H a) by now left.
  destruct (String.eqb (CacheEntry.key v) (CacheEntry.key a)); cbn;
    rewrite IH by (intros; apply H; now right); reflexivity.
Qed.

Lemma lruKeys_remove s v :
  consistent s -> maxSize (cfg s) <> None -> In v (lruOf s) ->
  map CacheEntry.key (LruList.remove v (lruOf s))
    = without (CacheEntry.key v) (lruKeys s).
Proof.
  intros Hc Hm Hin. apply keys_remove. intros x Hx.
  apply (same_iff_key s); auto;
    eapply Permutation_in; try apply (con_lru _ Hc Hm); auto.
Qed.

Lemma getLru_snoc l v : LruList.getLru l = Some v -> exists l', l = l' ++ [v].
Proof.
  induction l as [|a l IH]; [discriminate|].
  rewrite getLru_cons. destruct (LruList.getLru l) as [v'|] eqn:E.
  - intros [= ->]. destruct (IH eq_refl) as [l' ->]. now exists (a :: l').
  - intros [= ->]. destruct l as [|b l].
    + now exists [].
    + destruct (getLru_nonempty (b :: l)) as [w Hw]; congruence.
Qed.

Lemma size_cacheKeys s :
  consistent s -> size s = Z.of_nat (List.length (cacheKeys s)).
Proof.
  intros Hc. rewrite (con_size _ Hc). unfold cardinality, cacheKeys, JsObject.keys.
  now rewrite length_map.
Qed.

Lemma stored_None_keys k s : stored k s = None <-> ~ In k (cacheKeys s).
Proof. apply lookup_None_notin. Qed.

Lemma has_no_maxAge k t s :
  maxAge (cfg s) = None -> (has k t s = true <-> In k (cacheKeys s)).
Proof.
  intros Ha. unfold has, cacheKeys, entriesOf. rewrite Ha.
  destruct (cache s) as [c|]; cbn; [|intuition discriminate].
  destruct (JsObject.lookup k c) as [e|] eqn:E; cbn.
  - split; auto. intros _. apply lookup_Some_in in E. now apply (in_map fst) in E.
  - apply lookup_None_notin in E. intuition discriminate.
Qed.

Section KeyLevel.
Variables (s : State) (N : Z).
Hypothesis Hcon : consistent s.
Hypothesis HN : maxSize (cfg s) = Some N.
Hypothesis HN1 : 1 <= N.

Lemma insert_keys_fits k fn p now :
  ~ In k (cacheKeys s) -> Z.of_nat (List.length (cacheKeys s)) + 1 <= N ->
  let s' := fst (get k (Fn fn (Thenable p)) now s) in
  consistent s' /\ cfg s' = cfg s /\
  cacheKeys s' = cacheKeys s ++ [k] /\
  lruKeys s' = k :: lruKeys s.
Proof.
  intros Hk Hlen s'. apply stored_None_keys in Hk.
  destruct (get_insert_fits s k fn p now Hcon Hk) as (_ & A & B & C & _ & _ & D).
  { intros m Hm. rewrite (size_cacheKeys _ Hcon).
    replace m with N by congruence. exact Hlen. }
  fold s' in A, B, C, D. split; [exact A|]. split; [exact B|]. split.
  - unfold cacheKeys, JsObject.keys. rewrite C, map_app. reflexivity.
  - unfold lruKeys. rewrite D by congruence. reflexivity.
Qed.

Lemma insert_keys_evict k fn p now :
  ~ In k (cacheKeys s) -> Z.of_nat (List.length (cacheKeys s)) + 1 > N ->
  let s' := fst (get k (Fn fn (Thenable p)) now s) in
  exists victim older,
    lruKeys s = older ++ [victim] /\
    In victim (cacheKeys s) /\
    consistent s' /\ cfg s' = cfg s /\
    cacheKeys s' = without victim (cacheKeys s) ++ [k] /\
    lruKeys s' = k :: without victim (lruKeys s).
Proof.
  intros Hk Hlen s'. apply stored_None_keys in Hk.
  destruct (get_insert_evict s k fn p now N Hcon Hk HN HN1)
    as (v & Hv & Hst & _ & _ & A & B & C & _ & _ & D).
  { rewrite (size_cacheKeys _ Hcon). exact Hlen. }
  fold s' in A, B, C, D.
  destruct (getLru_snoc _ _ Hv) as [l' Hl'].
  exists (CacheEntry.key v), (map CacheEntry.key l').
  split; [unfold lruKeys; rewrite Hl', map_app; reflexivity|].
  split; [apply lookup_Some_in in Hst; now apply (in_map fst) in Hst|].
  split; [exact A|]. split; [exact B|]. split.
  - unfold cacheKeys, JsObject.keys. rewrite C, map_app.
    fold (JsObject.keys (JsObject.delete (CacheEntry.key v) (entriesOf s))).
    now rewrite keys_delete.
  - unfold lruKeys at 1. rewrite D. cbn [map]. f_equal.
    apply lruKeys_remove; auto; [congruence|]. now apply getLru_in.
Qed.

Lemma hit_keys k fn ret now :
  In k (cacheKeys s) -> maxAge (cfg s) = None ->
  let s' := fst (get k (Fn fn ret) now s) in
  consistent s' /\ cfg s' = cfg s /\
  cacheKeys s' = cacheKeys s /\
  lruKeys s' = k :: without k (lruKeys s).
Proof.
  intros Hk Ha s'.
  destruct (stored k s) as [e|] eqn:Hst;
    [|apply stored_None_keys in Hst; contradiction].
  assert (Hexp : CacheEntry.isExpired (maxAge (cfg s)) now e = false)
    by now rewrite Ha.
  destruct (get_hit_consistent s k fn ret now e Hcon Hst Hexp)
    as (_ & A & B & C & _ & _ & D).
  fold s' in A, B, C, D.
  assert (Hm : maxSize (cfg s) <> None) by congruence.
  assert (Hke : CacheEntry.key e = k).
  { apply lookup_Some_in in Hst. exact (con_key _ Hcon _ _ Hst). }
  split; [exact A|]. split; [exact B|]. split.
  - unfold cacheKeys. now rewrite C.
  - unfold lruKeys at 1. rewrite (D Hm). cbn [map]. rewrite Hke. f_equal.
    rewrite <- Hke. apply lruKeys_remove; auto.
    eapply Permutation_in; [symmetry; apply (con_lru _ Hcon Hm)|].
    apply lookup_Some_in in Hst. now apply (in_map snd) in Hst.
Qed.
End KeyLevel.

(** ** LRU eviction order *)

Lemma fifo_init c : fifo c (init c) [].
Proof. repeat (split; [auto using consistent_init|]). reflexivity. Qed.

Lemma without_app k a b : without k (a ++ b) = without k a ++ without k b.
Proof. apply filter_app. Qed.

Lemma without_self k : without k [k] = [].
Proof. unfold without. cbn. now rewrite String.eqb_refl. Qed.

Lemma fifo_insert c N s ks x :
  maxSize c = Some N -> 1 <= N ->
  fifo c s ks -> ~ In (iKey x) ks ->
  (Z.of_nat (List.length ks) + 1 <= N ->
     fifo c (step s (insertOp x)) (ks ++ [iKey x])) /\
  (Z.of_nat (List.length ks) + 1 > N ->
     fifo c (step s (insertOp x)) (tl ks ++ [iKey x])).
Proof.
  intros Hm HN (Hc & Hcfg & HK & HR) Hx. subst c.
  rewrite <- HK in Hx. split; intros Hlen; rewrite <- HK in Hlen.
  - destruct (insert_keys_fits s N Hc Hm _ (iFn x) (iPromise x) (iTime x) Hx Hlen)
      as (A & B & C & D).
    split; [exact A|]. split; [exact B|]. cbn [step insertOp]. split.
    + now rewrite C, HK.
    + rewrite D, HR, rev_app_distr. reflexivity.
  - destruct (insert_keys_evict s N Hc Hm HN _ (iFn x) (iPromise x) (iTime x) Hx Hlen)
      as (victim & older & HL & Hv & A & B & C & D).
    split; [exact A|]. split; [exact B|]. cbn [step insertOp].
    assert (Hks : ks = victim :: rev older).
    { rewrite <- (rev_involutive ks), <- HR, HL, rev_app_distr. reflexivity. }
    pose proof (con_keys _ Hc) as Hnd. fold (cacheKeys s) in Hnd.
    rewrite HK, Hks in Hnd. apply NoDup_cons_iff in Hnd as [Hn Hnd'].
    assert (Hno : ~ In victim older) by (now rewrite in_rev).
    split.
    + rewrite C, HK, Hks. cbn [tl]. f_equal.
      change (victim :: rev older) with ([victim] ++ rev older).
      now rewrite without_app, without_self, without_notin.
    + rewrite D, HL, without_app, without_self, app_nil_r, without_notin by exact Hno.
      rewrite Hks. cbn [tl]. rewrite rev_app_distr, rev_involutive. reflexivity.
Qed.

Lemma fifo_run c N xs : forall s ks,
  maxSize c = Some N -> 1 <= N ->
  fifo c s ks -> NoDup (ks ++ map iKey xs) ->
  Z.of_nat (List.length ks + List.length xs) <= N ->
  fifo c (run (map insertOp xs) s) (ks ++ map iKey xs).
Proof.
  induction xs as [|x xs IH]; intros s ks Hm HN Hf Hnd Hlen.
  - cbn. now rewrite app_nil_r.
  - cbn [map] in *.
    assert (Hx : ~ In (iKey x) ks).
    { intros Hin. apply NoDup_remove_2 in Hnd. apply Hnd, in_or_app. now left. }
    assert (Hnd' : NoDup ((ks ++ [iKey x]) ++ map iKey xs))
      by (now rewrite <- app_assoc).
    change (run (insertOp x :: map insertOp xs) s)
      with (run (map insertOp xs) (step s (insertOp x))).
    replace (ks ++ iKey x :: map iKey xs) with ((ks ++ [iKey x]) ++ map iKey xs)
      by (now rewrite <- app_assoc).
    cbn [List.length] in Hlen.
    apply IH; auto.
    + apply (fifo_insert c N s ks x Hm HN Hf Hx). lia.
    + rewrite length_app. cbn [List.length]. lia.
Qed.

Lemma NoDup_other (l : list string) h :
  NoDup l -> (2 <= List.length l)%nat -> exists x, In x l /\ x <> h.
Proof.
  destruct l as [|a [|b l]]; cbn; try lia. intros Hnd _.
  inversion Hnd as [|? ? Hn _]; subst.
  destruct (String.eqb_spec a h) as [->|Ha].
  - exists b. split; [auto|]. intros ->. apply Hn. now left.
  - exists a. auto.
Qed.

Lemma run_snoc ops o s : run (ops ++ [o]) s = step (run ops s) o.
Proof. unfold run. now rewrite fold_left_app. Qed.




(** ** [prune] in a consistent state *)

Lemma cleared_clear s : cleared (clear s).
Proof.
  unfold cleared, clear, stopPruningInterval.
  destruct s as [cf ca sz [id|] l h]; repeat split.
Qed.

Lemma delete_middle {V} k (v : V) a b :
  NoDup (JsObject.keys (a ++ (k, v) :: b)) ->
  JsObject.delete k (a ++ (k, v) :: b) = a ++ b.
Proof.
  intros Hnd. unfold JsObject.keys in Hnd. rewrite map_app in Hnd. cbn [map fst] in Hnd.
  pose proof (NoDup_remove_2 _ _ _ Hnd) as Hn.
  rewrite delete_app. cbn [JsObject.delete]. rewrite String.eqb_refl.
  rewrite !delete_absent; auto; intros Hin; apply Hn, in_or_app; auto.
Qed.

Lemma pruneLoop_spec age now rest : forall s kept,
  consistent s -> entriesOf s = kept ++ rest ->
  let r := pruneLoop age now rest s in
  snd r = Normal tt /\
  consistent (fst r) /\
  cfg (fst r) = cfg s /\
  entriesOf (fst r) = kept ++ filter (unexpired (Some age) now) rest /\
  (entriesOf (fst r) = [] -> rest <> [] -> cleared (fst r)).
Proof.
  induction rest as [|[k e] rest IH]; intros s kept Hc He; cbn [pruneLoop filter].
  - cbn [fst snd]. repeat (split; [now auto|]). congruence.
  - unfold unexpired at 1. cbn [snd].
    destruct (CacheEntry.isExpired (Some age) now e) eqn:Hexp; cbn [negb].
    + assert (Hin : In e (JsObject.values (entriesOf s))).
      { rewrite He. unfold JsObject.values. rewrite map_app. apply in_or_app.
        right. now left. }
      destruct (consistent_removeEntry s e Hc Hin) as [Hc1 Hn1].
      pose proof (cfg_removeEntry e s) as Hcfg1.
      assert (Hke : CacheEntry.key e = k).
      { apply (con_key _ Hc). rewrite He. apply in_or_app. right. now left. }
      assert (He1 : entriesOf (fst (removeEntry e s)) = kept ++ rest /\
                    (kept ++ rest = [] -> cleared (fst (removeEntry e s)))).
      { destruct (Z.eq_dec (size s) 1) as [H1|H1].
        - rewrite removeEntry_last by exact H1. cbn [fst].
          pose proof (cleared_clear s) as Hcl.
          rewrite (con_size _ Hc) in H1. unfold cardinality in H1.
          rewrite He, length_app in H1. cbn [List.length] in H1.
          destruct kept, rest; cbn [List.length] in H1; try lia.
          split; [|auto]. unfold entriesOf. now destruct Hcl as [-> _].
        - assert (Hca : cache s = Some (entriesOf s)).
          { unfold entriesOf in *. destruct (cache s); [reflexivity|].
            now destruct kept. }
          destruct (removeEntry_other e s _ H1 Hca) as (_ & Hv & _).
          unfold view in Hv. injection Hv as _ Hv _ _ _.
          rewrite Hv, Hke, He.
          pose proof (con_keys _ Hc) as Hnd. rewrite He in Hnd.
          rewrite (delete_middle _ _ _ _ Hnd). split; [reflexivity|].
          intros E. exfalso. pose proof (con_size _ Hc) as Hs.
          unfold cardinality in Hs. rewrite He, length_app in Hs.
          apply app_eq_nil in E as [-> ->]. cbn in Hs. contradiction. }
      destruct He1 as [He1 Hcl1].
      destruct (removeEntry e s) as [s1 r1]. cbn [fst snd] in *. subst r1.
      destruct (IH s1 kept Hc1 He1) as (A & B & C & D & E).
      split; [exact A|]. split; [exact B|]. split; [congruence|].
      split; [exact D|]. intros Hnil _.
      destruct rest as [|x rest']; [|apply E; [exact Hnil | discriminate]].
      cbn [pruneLoop fst]. apply Hcl1. cbn [pruneLoop fst filter] in Hnil, D.
      rewrite D in Hnil. exact Hnil.
    + destruct (IH s (kept ++ [(k, e)]) Hc) as (A & B & C & D & E).
      { now rewrite <- app_assoc. }
      rewrite <- app_assoc in D. cbn [app] in D.
      split; [exact A|]. split; [exact B|]. split; [exact C|].
      split; [exact D|]. intros Hnil _. rewrite D in Hnil.
      now destruct kept.
Qed.

(** In a consistent state [prune] does not throw, keeps the state
    consistent, removes exactly the expired entries and leaves the others as
    they are; when it removes the last entry the cache is reset and the
    pruning interval is stopped.  Without a map or without [maxAge] it
    changes nothing. *)
Lemma prune_consistent s now :
  consistent s ->
  let r := prune now s in
  snd r = Normal tt /\
  consistent (fst r) /\
  cfg (fst r) = cfg s /\
  entriesOf (fst r) = filter (unexpired (maxAge (cfg s)) now) (entriesOf s) /\
  (cache s = None \/ maxAge (cfg s) = None -> fst r = s) /\
  (entriesOf (fst r) = [] -> entriesOf s <> [] -> cleared (fst r)).
Proof.
  intros Hc r. unfold r, prune.
  assert (Hall : forall l : JsObject.t CacheEntry.t,
             filter (unexpired None now) l = l).
  { induction l as [|x l IHl]; cbn; [reflexivity | now rewrite IHl]. }
  destruct (cache s) as [c|] eqn:Eca.
  - destruct (maxAge (cfg s)) as [age|] eqn:Ea.
    + assert (He : entriesOf s = [] ++ c) by (unfold entriesOf; now rewrite Eca).
      destruct (pruneLoop_spec age now c s [] Hc He) as (A & B & C & D & E).
      rewrite (cache_entriesOf _ _ Eca).
      split; [exact A|]. split; [exact B|]. split; [exact C|]. split; [exact D|].
      split; [intros [?|?]; discriminate | exact E].
    + cbn [fst snd]. rewrite Hall. repeat (split; [now auto|]). congruence.
  - cbn [fst snd]. unfold entriesOf. rewrite Eca. cbn [filter].
    repeat (split; [now auto|]). congruence.
Qed.

(** ** The invariant along sequences of calls *)

Lemma consistent_evictOverflow s :
  consistent s -> consistent (fst (evictOverflow s)).
Proof.
  intros Hc. unfold evictOverflow.
  destruct (maxSize (cfg s)) as [m|]; [|exact Hc].
  destruct (size s >? m); [|exact Hc].
  destruct (lruList s) as [l|]; [|exact Hc].
  destruct (LruList.getLru l) as [v|]; [|exact Hc].
  destruct (consistent_remove (CacheEntry.getKey v) s Hc) as [H _].
  now destruct (remove (CacheEntry.getKey v) s) as [s' [r|err]].
Qed.

Lemma consistent_get_absent s k fn p now :
  consistent s -> stored k s = None ->
  consistent (fst (get k (Fn fn (Thenable p)) now s)).
Proof.
  intros Hc Hst.
  destruct (insertion_stored s k fn p now Hc Hst) as (s5 & _ & Hr & Hc5 & _).
  rewrite Hr. pose proof (consistent_evictOverflow s5 Hc5) as H6.
  destruct (evictOverflow s5) as [s6 [r6|err]]; cbn [fst] in *; [|exact H6].
  now apply registerRejection_obs.
Qed.

Lemma consistent_runHandlers hs : forall s,
  consistent s -> consistent (runHandlers hs s).
Proof.
  induction hs as [|h hs IH]; intros s Hc; cbn [runHandlers]; [exact Hc|].
  apply IH. destruct (isCurrent (hKey h) (hEntry h) s) eqn:E.
  - rewrite removeIfEntry_current by exact E. now apply consistent_remove.
  - now rewrite removeIfEntry_stale.
Qed.

Lemma consistent_destroy s :
  consistent s -> entriesOf s = [] -> consistent (destroy s).
Proof.
  intros [H1 H2 H3 H4 H5 H6] He. unfold cardinality in H1. rewrite He in *.
  unfold destroy, stopPruningInterval.
  destruct s as [cf ca sz [id|] l h]; constructor; cbn in *; auto;
    try apply NoDup_nil; tauto.
Qed.

(** A benign call keeps the bookkeeping consistent. *)
Lemma consistent_step s o :
  consistent s -> benign s o -> consistent (step s o).
Proof.
  intros Hc Hb. destruct o as [k setter now|k now|k|now|  |now| |p|now];
    cbn [step].
  - destruct setter as [fn ret|]; [|exact Hc].
    destruct (has k now s) eqn:Hhas.
    + destruct (has_true_stored _ _ _ Hhas) as (e & Hst & Hexp).
      now apply (get_hit_consistent s k fn ret now e).
    + destruct ret as [p|].
      * cbn [benign] in Hb. destruct Hb as [Hst|Habs]; [|congruence].
        now apply consistent_get_absent.
      * rewrite (get_miss _ _ _ _ _ (has_false_miss _ _ _ Hhas)).
        unfold addEntry. cbn [fst].
        eapply consistent_view; [|exact Hc]. symmetry. apply view_lazyInit.
  - exact Hc.
  - now apply consistent_remove.
  - unfold getSize. pose proof (prune_consistent s now Hc) as (_ & H & _).
    now destruct (prune now s) as [s' [r|err]].
  - apply consistent_clear.
  - now apply prune_consistent.
  - now apply consistent_destroy.
  - unfold rejectPromise. apply consistent_runHandlers.
    eapply consistent_view; [|exact Hc]. reflexivity.
  - unfold tick. destruct (pruningIntervalId s); [|exact Hc].
    now apply prune_consistent.
Qed.

(** Along a sequence of benign calls on a new cache, [size] is the number of
    keys of the map and the LRU list holds exactly the stored entries. *)
Lemma consistent_run ops : forall s,
  consistent s ->
  (forall pre o post, ops = pre ++ o :: post -> benign (run pre s) o) ->
  consistent (run ops s).
Proof.
  induction ops as [|o ops IH]; intros s Hc Hb; [exact Hc|].
  change (run (o :: ops) s) with (run ops (step s o)).
  apply IH.
  - apply consistent_step; [exact Hc|]. exact (Hb [] o ops eq_refl).
  - intros pre o' post E. apply (Hb (o :: pre) o' post). cbn. now rewrite E.
Qed.

(** ** Object identities along sequences of calls *)

Lemma oid_stopPruningInterval s :
  nextOid (host (stopPruningInterval s)) = nextOid (host s).
Proof. unfold stopPruningInterval. now destruct (pruningIntervalId s). Qed.

Lemma oid_startPruningInterval s :
  nextOid (host (startPruningInterval s)) = nextOid (host s).
Proof.
  pose proof (view_startPruningInterval s) as H. unfold view in H. congruence.
Qed.

Lemma oid_clear s : nextOid (host (clear s)) = nextOid (host s).
Proof. unfold clear. now rewrite oid_stopPruningInterval. Qed.

Lemma oid_removeEntry e s :
  nextOid (host (fst (removeEntry e s))) = nextOid (host s).
Proof.
  unfold removeEntry. destruct (size s =? 1); [apply oid_clear|].
  destruct s as [cf [c|] sz ti [l|] h]; reflexivity.
Qed.

Lemma oid_remove k s : nextOid (host (fst (remove k s))) = nextOid (host s).
Proof.
  unfold remove. destruct (cache s) as [c|]; [|reflexivity].
  destruct (JsObject.lookup k c) as [e|]; [|reflexivity].
  pose proof (oid_removeEntry e s) as H.
  now destruct (removeEntry e s) as [s' [r|err]].
Qed.

Lemma oid_removeIfEntry k e s :
  nextOid (host (fst (removeIfEntry k e s))) = nextOid (host s).
Proof.
  unfold removeIfEntry. destruct (cache s) as [c|]; [|reflexivity].
  destruct (JsObject.lookup k c) as [e'|]; [|reflexivity].
  destruct (CacheEntry.same e' e); [|reflexivity].
  pose proof (oid_remove k s) as H.
  now destruct (remove k s) as [s' [r|err]].
Qed.

Lemma oid_pruneLoop age now props : forall s,
  nextOid (host (fst (pruneLoop age now props s))) = nextOid (host s).
Proof.
  induction props as [|[k e] props IH]; intros s; cbn [pruneLoop]; [reflexivity|].
  destruct (CacheEntry.isExpired (Some age) now e); [|apply IH].
  pose proof (oid_removeEntry e s) as H.
  destruct (removeEntry e s) as [s' [r|err]]; cbn [fst] in *; [|exact H].
  now rewrite IH.
Qed.

Lemma oid_prune now s : nextOid (host (fst (prune now s))) = nextOid (host s).
Proof.
  unfold prune. destruct (cache s); [|reflexivity].
  destruct (maxAge (cfg s)); [apply oid_pruneLoop | reflexivity].
Qed.

Lemma oid_runHandlers hs : forall s,
  nextOid (host (runHandlers hs s)) = nextOid (host s).
Proof.
  induction hs as [|h hs IH]; intros s; cbn [runHandlers]; [reflexivity|].
  now rewrite IH, oid_removeIfEntry.
Qed.

Lemma oid_evictOverflow s :
  nextOid (host (fst (evictOverflow s))) = nextOid (host s).
Proof.
  unfold evictOverflow. destruct (maxSize (cfg s)); [|reflexivity].
  destruct (size s >? z); [|reflexivity].
  destruct (lruList s) as [l|]; [|reflexivity].
  destruct (LruList.getLru l) as [v|]; [|reflexivity].
  pose proof (oid_remove (CacheEntry.getKey v) s) as H.
  now destruct (remove (CacheEntry.getKey v) s) as [s' [r|err]].
Qed.

Lemma oid_storeEntry k p now s :
  nextOid (host (fst (storeEntry k p now s))) = S (nextOid (host s)).
Proof.
  unfold storeEntry, newCacheEntry.
  destruct s as [cf [c|] sz ti [l|] h]; cbn [cache set_host fst];
    rewrite ?oid_startPruningInterval; reflexivity.
Qed.

(** A call of [get] that invokes a setter returning a promise allocates
    exactly one entry object. *)
Lemma oid_get_insert k fn p now s :
  has k now s = false ->
  nextOid (host (fst (get k (Fn fn (Thenable p)) now s))) = S (nextOid (host s)).
Proof.
  intros Hhas. rewrite (get_miss _ _ _ _ _ (has_false_miss _ _ _ Hhas)).
  unfold addEntry.
  pose proof (oid_storeEntry k p now (callSetter fn (lazyInit s))) as H5.
  change (nextOid (host (callSetter fn (lazyInit s))))
    with (nextOid (host (lazyInit s))) in H5. rewrite host_lazyInit in H5.
  destruct (storeEntry k p now (callSetter fn (lazyInit s))) as [s5 [e|err]];
    cbn [fst] in *; [|exact H5].
  pose proof (oid_evictOverflow s5) as H6.
  destruct (evictOverflow s5) as [s6 [r|err]]; cbn [fst] in *; [|congruence].
  change (nextOid (host (registerRejection p k e s6))) with (nextOid (host s6)).
  congruence.
Qed.

Lemma oid_get_mono k setter now s :
  (nextOid (host s) <= nextOid (host (fst (get k setter now s))))%nat.
Proof.
  destruct setter as [fn ret|]; [|unfold get; cbn [fst]; lia].
  destruct (has k now s) eqn:Hhas.
  - destruct (has_true_stored _ _ _ Hhas) as (e & Hst & Hexp).
    rewrite (get_hit _ _ _ _ _ _ Hst Hexp). cbn [fst].
    rewrite <- (host_lazyInit s). destruct (lruList (lazyInit s)); cbn; lia.
  - destruct ret as [p|].
    + rewrite oid_get_insert by exact Hhas. lia.
    + rewrite (get_miss _ _ _ _ _ (has_false_miss _ _ _ Hhas)).
      unfold addEntry. cbn [fst callSetter set_host host nextOid].
      rewrite host_lazyInit. lia.
Qed.

Lemma oid_step_mono s o :
  (nextOid (host s) <= nextOid (host (step s o)))%nat.
Proof.
  destruct o as [k setter now|k now|k|now|  |now| |p|now]; cbn [step].
  - apply oid_get_mono.
  - lia.
  - rewrite oid_remove. lia.
  - unfold getSize. pose proof (oid_prune now s) as H.
    destruct (prune now s) as [s' [r|err]]; cbn [fst] in *; lia.
  - rewrite oid_clear. lia.
  - rewrite oid_prune. lia.
  - unfold destroy. cbn [set_cache host]. rewrite oid_stopPruningInterval. lia.
  - unfold rejectPromise. rewrite oid_runHandlers. cbn. lia.
  - unfold tick. destruct (pruningIntervalId s); [rewrite oid_prune|]; lia.
Qed.

Lemma oid_run_mono ops : forall s,
  (nextOid (host s) <= nextOid (host (run ops s)))%nat.
Proof.
  induction ops as [|o ops IH]; intros s; [cbn; lia|].
  change (run (o :: ops) s) with (run ops (step s o)).
  pose proof (oid_step_mono s o). pose proof (IH (step s o)). lia.
Qed.

(** The scenario of the stale-entry guard: a call of [get] inserts an entry
    for [k]; after any calls and events a later call of [get] inserts
    another entry for [k], which is the one stored afterwards.  Then the
    rejection callback of the first call leaves the state as it is. *)
Lemma rejection_after_overwrite
    (s : State) (k : string) (fn1 fn2 : nat) (p1 p2 : PromiseRef)
    (t1 t2 : Z) (between : list Op) :
  let e1 := CacheEntry.make (nextOid (host s)) k p1 t1 in
  let s1 := fst (get k (Fn fn1 (Thenable p1)) t1 s) in
  let s2 := run between s1 in
  let e2 := CacheEntry.make (nextOid (host s2)) k p2 t2 in
  let s3 := fst (get k (Fn fn2 (Thenable p2)) t2 s2) in
  has k t1 s = false ->
  stored k s3 = Some e2 ->
  removeIfEntry k e1 s3 = (s3, Normal tt) /\ stored k s3 = Some e2.
Proof.
  intros e1 s1 s2 e2 s3 Hmiss Hst. split; [|exact Hst].
  apply removeIfEntry_stale. unfold isCurrent. rewrite Hst.
  apply Nat.eqb_neq. cbn.
  pose proof (oid_get_insert k fn1 p1 t1 s Hmiss) as H1. fold s1 in H1.
  pose proof (oid_run_mono between s1) as H2. fold s2 in H2. lia.
Qed.

(** ** The stale-entry guard *)

(** C6.  The rejection callback of a call removes the entry stored under its
    key only if that entry is the very instance created by the call: when
    another instance (or nothing) is stored there, [removeIfEntry] leaves
    the whole state as it is, and otherwise it acts as [remove].  Hence the
    rejection of a promise all of whose callbacks belong to replaced entries
    changes nothing but the list of pending callbacks; and when a call of
    [get] has inserted an entry for [k] and, after any calls and events, a
    later call of [get] has stored another entry under [k], the rejection
    callback of the first call does not remove the newer entry. *)
Theorem C6_stale_entry_guard
    (s : State) (k : string) (created : CacheEntry.t) (p : PromiseRef)
    (fn1 fn2 : nat) (p1 p2 : PromiseRef) (t1 t2 : Z) (between : list Op) :
  (isCurrent k created s = false ->
     removeIfEntry k created s = (s, Normal tt)) /\
  (isCurrent k created s = true ->
     fst (removeIfEntry k created s) = fst (remove k s)) /\
  ((forall h, In h (handlers (host s)) -> hPromise h = p ->
              isCurrent (hKey h) (hEntry h) s = false) ->
     rejectPromise p s = dropHandlers p s /\
     forall k', stored k' (rejectPromise p s) = stored k' s) /\
  (let e1 := CacheEntry.make (nextOid (host s)) k p1 t1 in
   let s1 := fst (get k (Fn fn1 (Thenable p1)) t1 s) in
   let s2 := run between s1 in
   let e2 := CacheEntry.make (nextOid (host s2)) k p2 t2 in
   let s3 := fst (get k (Fn fn2 (Thenable p2)) t2 s2) in
   has k t1 s = false ->
   stored k s3 = Some e2 ->
   removeIfEntry k e1 s3 = (s3, Normal tt) /\
   stored k (fst (removeIfEntry k e1 s3)) = Some e2).
Proof.
  split; [apply removeIfEntry_stale|]. split; [apply removeIfEntry_current|].
  split.
  - intros H.
    assert (E : rejectPromise p s = dropHandlers p s).
    { unfold rejectPromise. apply runHandlers_stale.
      intros h Hin. apply filter_In in Hin as [Hin Hp].
      apply Nat.eqb_eq in Hp. exact (H h Hin Hp). }
    split; [exact E|]. intros k'. now rewrite E.
  - intros e1 s1 s2 e2 s3 Hmiss Hst.
    destruct (rejection_after_overwrite s k fn1 fn2 p1 p2 t1 t2 between Hmiss Hst)
      as [E _].
    fold e1 s1 s2 s3 in E. split; [exact E|]. now rewrite E.
Qed.

Lemma C6_stale_entry_guard_witness :
  let s := run overwriteRun (init cfgAge100) in
  removeIfEntry "a" oldEntry s = (s, Normal tt) /\
  stored "a" (rejectPromise 10 s) = Some newEntry /\
  stored "a" (fst (removeIfEntry "a" oldEntry s)) = Some newEntry.
Proof.
  destruct (C6_stale_entry_guard (run overwriteRun (init cfgAge100))
              "a" oldEntry 10%nat 1%nat 1%nat 10%nat 11%nat 0 150 [])
    as (Hguard & _ & Hrej & _).
  destruct (C6_stale_entry_guard (init cfgAge100)
              "a" oldEntry 10%nat 1%nat 1%nat 10%nat 11%nat 0 150 [])
    as (_ & _ & _ & Hscenario).
  split; [|split].
  - apply Hguard. reflexivity.
  - destruct Hrej as [_ Hst].
    + intros h [<-|[<-|[]]]; [reflexivity | discriminate].
    + rewrite Hst. reflexivity.
  - apply Hscenario; reflexivity.
Defined.

(** * Further properties of the code *)

(** ** The invariant of all reachable states *)

Lemma sound_tview s s' : tview s = tview s' -> sound s -> sound s'.
Proof.
  unfold tview. intros [= Hc He Hs Ht Hi] [H1 H2 H3 H4 H5 H6].
  constructor; unfold cardinality in *;
    rewrite <- ?Hc, <- ?He, <- ?Hs, <- ?Ht, <- ?Hi; auto.
Qed.

Lemma tview_lazyInit s : tview (lazyInit s) = tview s.
Proof. lazy_cases s. Qed.

Lemma sound_init c : sound (init c).
Proof.
  constructor; cbn; auto using NoDup_nil; try tauto; try lia; congruence.
Qed.

Lemma sound_clear s : sound s -> sound (clear s).
Proof.
  intros [_ _ _ H4 _ _]. unfold clear, stopPruningInterval.
  destruct s as [cf ca sz [id|] l h]; cbn in *;
    constructor; cbn; auto using NoDup_nil; try tauto; try lia; try congruence.
  rewrite H4. cbn. now rewrite Nat.eqb_refl.
Qed.

Lemma sound_destroy s : sound s -> sound (destroy s).
Proof.
  intros [_ _ H3 H4 _ _]. unfold destroy, stopPruningInterval.
  unfold cardinality in H3.
  destruct s as [cf ca sz [id|] l h]; cbn in *;
    constructor; cbn; auto using NoDup_nil; try tauto; try lia; try congruence.
  rewrite H4. cbn. now rewrite Nat.eqb_refl.
Qed.

Lemma delete_length_present {V} k (v : V) (o : JsObject.t V) :
  In (k, v) o ->
  (S (List.length (JsObject.delete k o)) <= List.length o)%nat.
Proof.
  induction o as [|[k' v'] o IH]; cbn; [tauto|].
  intros [H|H].
  - inversion H; subst. rewrite String.eqb_refl.
    rewrite delete_filter. pose proof (filter_length_le
      (fun kv : string * V => negb (String.eqb k (fst kv))) o). lia.
  - destruct (String.eqb k k'); cbn.
    + rewrite delete_filter. pose proof (filter_length_le
        (fun kv : string * V => negb (String.eqb k (fst kv))) o). lia.
    + specialize (IH H). lia.
Qed.

Lemma in_delete {V} k (x : string * V) (o : JsObject.t V) :
  In x (JsObject.delete k o) -> In x o.
Proof. rewrite delete_filter. intros H. now apply filter_In in H. Qed.

Lemma singleton_of_length {V} (o : JsObject.t V) x :
  In x o -> (List.length o <= 1)%nat -> o = [x].
Proof.
  destruct o as [|a [|b o]]; cbn; try tauto; try lia.
  intros [->|[]] _. reflexivity.
Qed.

(** Removal of an entry that is stored under its key. *)
Lemma sound_removeEntry s e :
  sound s -> In (CacheEntry.key e, e) (entriesOf s) ->
  snd (removeEntry e s) = Normal tt /\
  sound (fst (removeEntry e s)) /\
  cfg (fst (removeEntry e s)) = cfg s /\
  entriesOf (fst (removeEntry e s))
    = JsObject.delete (CacheEntry.key e) (entriesOf s).
Proof.
  intros Hs Hin. pose proof Hs as [H1 H2 H3 H4 H5 H6].
  unfold cardinality in H3.
  destruct (Z.eq_dec (size s) 1) as [E|E].
  - rewrite removeEntry_last by exact E. cbn [fst snd].
    split; [reflexivity|]. split; [now apply sound_clear|].
    split; [apply cfg_clear|].
    rewrite (singleton_of_length _ _ Hin) by lia. cbn.
    rewrite String.eqb_refl.
    pose proof (view_clear s) as Hv. unfold view in Hv. congruence.
  - assert (Hca : cache s = Some (entriesOf s)).
    { unfold entriesOf in *. destruct (cache s); [reflexivity | contradiction]. }
    destruct (removeEntry_other e s _ E Hca) as (Hn & Hv & Hh & Ht & _).
    unfold view in Hv. injection Hv as Hv1 Hv2 Hv3 _ _.
    split; [exact Hn|]. split; [|split; [exact Hv1 | exact Hv2]].
    pose proof (delete_length_present _ _ _ Hin) as Hlen.
    constructor; unfold cardinality; rewrite ?Hv1, ?Hv2, ?Hv3, ?Hh, ?Ht; auto.
    + rewrite delete_filter. apply NoDup_map_filter, H1.
    + intros k x Hx. apply H2. eapply in_delete; eauto.
    + lia.
    + intros Hrun. destruct (H5 Hrun) as (A & B & C).
      assert (1 <= Z.of_nat (List.length (entriesOf s))).
      { destruct (entriesOf s); [contradiction | cbn; lia]. }
      split; [lia | auto].
    + intros Hne. apply H6. intros E0. rewrite E0 in Hne. now apply Hne.
Qed.

(** [remove] never throws; in a reachable state it removes the key it is
    given and nothing else. *)
Lemma remove_normal k s : exists r, snd (remove k s) = Normal r.
Proof.
  unfold remove. destruct (cache s) as [c|] eqn:Ec; [|cbn; eauto].
  destruct (JsObject.lookup k c) as [e|]; [|cbn; eauto].
  assert (H : exists s', removeEntry e s = (s', Normal tt)).
  { unfold removeEntry. destruct (size s =? 1); [eauto|].
    destruct s as [cf ca sz ti [l|] h]; cbn in *; subst ca; cbn; eauto. }
  destruct H as [s' ->]. cbn. eauto.
Qed.

Lemma sound_remove s k :
  sound s ->
  sound (fst (remove k s)) /\
  cfg (fst (remove k s)) = cfg s /\
  entriesOf (fst (remove k s)) = JsObject.delete k (entriesOf s).
Proof.
  intros Hs. destruct (stored k s) as [e|] eqn:Hst.
  - destruct (remove_present _ _ _ Hst) as [-> _].
    pose proof (lookup_Some_in _ _ _ Hst) as Hin.
    pose proof (snd_key _ Hs _ _ Hin) as Hk. rewrite <- Hk in Hin.
    destruct (sound_removeEntry s e Hs Hin) as (_ & A & B & C).
    rewrite Hk in C. auto.
  - destruct (remove_absent _ _ Hst) as [-> _].
    split; [exact Hs|]. split; [reflexivity|].
    symmetry. apply delete_absent. now apply lookup_None_notin.
Qed.

Lemma in_assign {V} k (v : V) o x :
  In x (JsObject.assign k v o) -> x = (k, v) \/ In x o.
Proof.
  induction o as [|[k' v'] o IH]; cbn.
  - intros [<-|[]]. now left.
  - destruct (String.eqb_spec k k'); cbn.
    + subst. intros [<-|H]; auto.
    + intros [<-|H]; auto. destruct (IH H); auto.
Qed.

Lemma keys_assign {V} k (v : V) o :
  JsObject.keys (JsObject.assign k v o) = JsObject.keys o \/
  (~ In k (JsObject.keys o) /\
   JsObject.keys (JsObject.assign k v o) = JsObject.keys o ++ [k]).
Proof.
  unfold JsObject.keys. induction o as [|[k' v'] o IH]; cbn.
  - right. split; [tauto | reflexivity].
  - destruct (String.eqb_spec k k'); cbn; [now left|].
    destruct IH as [->|[Hn ->]]; [now left|].
    right. split; [intros [?|?]; [congruence | contradiction] | reflexivity].
Qed.

Lemma NoDup_keys_assign {V} k (v : V) o :
  NoDup (JsObject.keys o) -> NoDup (JsObject.keys (JsObject.assign k v o)).
Proof.
  intros H. destruct (keys_assign k v o) as [->|[Hn ->]]; auto.
  now apply NoDup_snoc.
Qed.

Lemma assign_length {V} k (v : V) o :
  (1 <= List.length (JsObject.assign k v o) <= S (List.length o))%nat.
Proof.
  induction o as [|[k' v'] o IH]; cbn; [lia|].
  destruct (String.eqb k k'); cbn; lia.
Qed.

(** The statements of [addEntry] that store the entry, on a state whose map
    exists. *)
Lemma sound_storeEntry s k p now :
  sound s -> cache s <> None ->
  let e := CacheEntry.make (nextOid (host s)) k p now in
  snd (storeEntry k p now s) = Normal e /\
  sound (fst (storeEntry k p now s)) /\
  cfg (fst (storeEntry k p now s)) = cfg s /\
  entriesOf (fst (storeEntry k p now s)) = JsObject.assign k e (entriesOf s) /\
  lruList (fst (storeEntry k p now s))
    = option_map (LruList.pushMru e) (lruList s).
Proof.
  intros [H1 H2 H3 H4 H5 H6] Hca e. unfold cardinality in H3.
  destruct (cache s) as [c|] eqn:Ec; [|contradiction].
  destruct (storeEntry_view k p now s c Ec) as (A & B & C & _). fold e in A, B, C.
  unfold view in B. injection B as B1 B2 B3 _ _.
  rewrite (cache_entriesOf _ _ Ec) in *.
  split; [exact A|]. split; [|auto].
  pose proof (assign_length k e c) as Hlen.
  assert (Htimer :
    let s' := fst (storeEntry k p now s) in
    intervals (host s') =
      match pruningIntervalId s' with Some id => [id] | None => [] end /\
    (pruningIntervalId s' <> None ->
       maxAge (cfg s) <> None /\ pruneInterval (cfg s) <> None) /\
    (maxAge (cfg s) <> None -> pruneInterval (cfg s) <> None ->
       pruningIntervalId s' <> None)).
  { unfold storeEntry, newCacheEntry, startPruningInterval, setInterval.
    clear - H4 H5 Ec.
    destruct s as [[ms [ma|] [pi|]] ca sz [ti|] [l|] h]; cbn in *; subst ca; cbn;
      repeat split; try congruence; try tauto;
      try (intros X; destruct (H5 X) as (_ & ? & ?); tauto);
      try (rewrite H4; reflexivity). }
  destruct Htimer as (T1 & T2 & T3).
  constructor; unfold cardinality; rewrite ?B1, ?B2, ?B3; auto.
  - now apply NoDup_keys_assign.
  - intros k' x Hx. apply in_assign in Hx as [[= -> ->]|Hx]; [reflexivity | auto].
  - lia.
  - intros Hrun. destruct (T2 Hrun). split; [lia | auto].
Qed.

Lemma sound_evictOverflow s :
  sound s -> sound (fst (evictOverflow s)) /\ cfg (fst (evictOverflow s)) = cfg s.
Proof.
  intros Hs. unfold evictOverflow.
  destruct (maxSize (cfg s)) as [m|]; [|auto].
  destruct (size s >? m); [|auto].
  destruct (lruList s) as [l|]; [|auto].
  destruct (LruList.getLru l) as [v|]; [|auto].
  destruct (sound_remove s (CacheEntry.getKey v) Hs) as (A & B & _).
  now destruct (remove (CacheEntry.getKey v) s) as [s' [r|err]].
Qed.

(** After the lazy instantiations and the push of a node, the eviction
    statement finds a list and a node: it does not throw. *)
Lemma evictOverflow_normal s l :
  cache s <> None ->
  (maxSize (cfg s) <> None -> lruList s = Some l /\ l <> []) ->
  snd (evictOverflow s) = Normal tt.
Proof.
  intros Hca Hl. unfold evictOverflow.
  destruct (maxSize (cfg s)) as [m|]; [|reflexivity].
  destruct (size s >? m); [|reflexivity].
  destruct Hl as [-> Hne]; [congruence|].
  destruct (getLru_nonempty l Hne) as [v ->].
  destruct (remove_normal (CacheEntry.getKey v) s) as [r Hr].
  now destruct (remove (CacheEntry.getKey v) s) as [s' [r'|err]].
Qed.

Lemma lruList_lazyInit s :
  maxSize (cfg s) <> None -> lruList (lazyInit s) = Some (lruOf s).
Proof.
  intros Hm. destruct s as [[[m|] ma pi] [c|] sz ti [l|] h];
    cbn in Hm; try congruence; reflexivity.
Qed.

(** The insertion path with a setter that returns a promise: what it
    returns and what it keeps, in any state. *)
Lemma addEntry_thenable s k fn p now :
  let r := addEntry k fn (Thenable p) now (lazyInit s) in
  let e := CacheEntry.make (nextOid (host s)) k p now in
  snd r = Normal p /\
  cfg (fst r) = cfg s /\
  (stored k (fst r) = Some e \/ stored k (fst r) = None) /\
  In (mkHandler p k e) (handlers (host (fst r))) /\
  (sound s -> sound (fst r)).
Proof.
  intros r e. unfold r, addEntry.
  set (s0 := callSetter fn (lazyInit s)).
  assert (Hca : cache s0 = Some (entriesOf s)) by apply cache_lazyInit.
  destruct (storeEntry_view k p now s0 _ Hca) as (A & B & C & D).
  change (nextOid (host s0)) with (nextOid (host (lazyInit s))) in A, B, C.
  change (cfg s0) with (cfg (lazyInit s)) in B.
  change (lruList s0) with (lruList (lazyInit s)) in B, C.
  rewrite host_lazyInit, cfg_lazyInit in *. fold e in A, B, C.
  assert (Hsound5 : sound s -> sound (fst (storeEntry k p now s0))).
  { intros Hs. apply sound_storeEntry; [|congruence].
    eapply sound_tview; [|exact Hs]. symmetry. apply tview_lazyInit. }
  destruct (storeEntry k p now s0) as [s5 r5]. cbn [fst snd] in *. subst r5.
  unfold view in B. injection B as B1 B2 _ _ _.
  assert (Hca5 : cache s5 <> None).
  { intros E5. pose proof (assign_length k e (entriesOf s)) as H.
    rewrite <- B2 in H. unfold entriesOf in H at 1. rewrite E5 in H.
    cbn in H. lia. }
  assert (Hst5 : stored k s5 = Some e).
  { unfold stored. rewrite B2. apply lookup_assign_same. }
  assert (Hn : snd (evictOverflow s5) = Normal tt).
  { apply (evictOverflow_normal s5 (e :: lruOf s)); [exact Hca5|].
    intros Hm. rewrite B1 in Hm. rewrite C, (lruList_lazyInit _ Hm).
    split; [reflexivity | discriminate]. }
  assert (Hst6 : stored k (fst (evictOverflow s5)) = Some e \/
                 stored k (fst (evictOverflow s5)) = None).
  { unfold evictOverflow.
    destruct (maxSize (cfg s5)) as [m|]; [|now left].
    destruct (size s5 >? m); [|now left].
    destruct (lruList s5) as [l|]; [|now left].
    destruct (LruList.getLru l) as [v|]; [|now left].
    assert (H : stored k (fst (remove (CacheEntry.getKey v) s5)) = Some e \/
                stored k (fst (remove (CacheEntry.getKey v) s5)) = None).
    { destruct (stored (CacheEntry.getKey v) s5) as [x|] eqn:Hx.
      - destruct (remove_present _ _ _ Hx) as [-> _].
        destruct (Z.eq_dec (size s5) 1) as [E|E].
        + rewrite removeEntry_last by exact E. right. cbn [fst].
          pose proof (view_clear s5) as Hv. unfold view in Hv.
          injection Hv as _ Hv _ _ _. unfold stored. now rewrite Hv.
        + destruct (removeEntry_other x s5 _ E (stored_cache _ _ _ Hx))
            as (_ & Hv & _).
          unfold view in Hv. injection Hv as _ Hv _ _ _.
          unfold stored. rewrite Hv.
          destruct (String.eqb_spec k (CacheEntry.key x)) as [->|Hne].
          * right. apply lookup_delete_same.
          * left. now rewrite lookup_delete_other.
      - destruct (remove_absent _ _ Hx) as [-> _]. now left. }
    now destruct (remove (CacheEntry.getKey v) s5) as [s' [r'|err]]. }
  pose proof (sound_evictOverflow s5) as Hs6.
  assert (Hcfg6 : cfg (fst (evictOverflow s5)) = cfg s5).
  { unfold evictOverflow.
    destruct (maxSize (cfg s5)) as [m|]; [|reflexivity].
    destruct (size s5 >? m); [|reflexivity].
    destruct (lruList s5) as [l|]; [|reflexivity].
    destruct (LruList.getLru l) as [v|]; [|reflexivity].
    pose proof (cfg_remove (CacheEntry.getKey v) s5) as H.
    now destruct (remove (CacheEntry.getKey v) s5) as [s' [r'|err]]. }
  destruct (evictOverflow s5) as [s6 r6]. cbn [fst snd] in *. subst r6.
  split; [reflexivity|]. split; [cbn; congruence|].
  split; [exact Hst6|]. split.
  - cbn. apply in_or_app. right. now left.
  - intros Hs. eapply sound_tview; [|apply Hs6, Hsound5, Hs]. reflexivity.
Qed.

Lemma sound_get s k setter now :
  sound s ->
  sound (fst (get k setter now s)) /\ cfg (fst (get k setter now s)) = cfg s.
Proof.
  intros Hs. destruct setter as [fn ret|]; [|unfold get; cbn; auto].
  destruct (has k now s) eqn:Hhas.
  - destruct (has_true_stored _ _ _ Hhas) as (e & Hst & Hexp).
    rewrite (get_hit _ _ _ _ _ _ Hst Hexp). cbn [fst].
    pose proof (tview_lazyInit s) as Hv. pose proof (cfg_lazyInit s) as Hc.
    destruct (lruList (lazyInit s)).
    + split; [|exact Hc]. eapply sound_tview; [|exact Hs]. now rewrite <- Hv.
    + split; [|exact Hc]. eapply sound_tview; [|exact Hs]. now rewrite <- Hv.
  - rewrite (get_miss _ _ _ _ _ (has_false_miss _ _ _ Hhas)).
    destruct ret as [p|].
    + destruct (addEntry_thenable s k fn p now) as (_ & A & _ & _ & B). auto.
    + unfold addEntry. cbn [fst]. split; [|apply cfg_lazyInit].
      eapply sound_tview; [|exact Hs]. symmetry. apply tview_lazyInit.
Qed.

(** [prune] in a reachable state. *)
Lemma pruneLoop_sound age now rest : forall s kept,
  sound s -> entriesOf s = kept ++ rest ->
  let r := pruneLoop age now rest s in
  snd r = Normal tt /\
  sound (fst r) /\
  cfg (fst r) = cfg s /\
  entriesOf (fst r) = kept ++ filter (unexpired (Some age) now) rest.
Proof.
  induction rest as [|[k e] rest IH]; intros s kept Hs He; cbn [pruneLoop filter].
  - cbn [fst snd]. auto.
  - unfold unexpired at 1. cbn [snd].
    destruct (CacheEntry.isExpired (Some age) now e) eqn:Hexp; cbn [negb].
    + assert (Hin : In (k, e) (entriesOf s))
        by (rewrite He; apply in_or_app; right; now left).
      pose proof (snd_key _ Hs _ _ Hin) as Hk. rewrite <- Hk in Hin.
      destruct (sound_removeEntry s e Hs Hin) as (A & B & C & D).
      pose proof (snd_keys _ Hs) as Hnd. rewrite He in Hnd.
      rewrite Hk, He, (delete_middle _ _ _ _ Hnd) in D.
      destruct (removeEntry e s) as [s1 r1]. cbn [fst snd] in *. subst r1.
      destruct (IH s1 kept B D) as (A' & B' & C' & D').
      repeat (split; [auto; congruence|]). exact D'.
    + destruct (IH s (kept ++ [(k, e)]) Hs) as (A & B & C & D).
      { now rewrite <- app_assoc. }
      rewrite <- app_assoc in D. auto.
Qed.

Lemma sound_prune s now :
  sound s ->
  snd (prune now s) = Normal tt /\
  sound (fst (prune now s)) /\
  cfg (fst (prune now s)) = cfg s /\
  entriesOf (fst (prune now s))
    = filter (unexpired (maxAge (cfg s)) now) (entriesOf s).
Proof.
  intros Hs. unfold prune.
  assert (Hall : forall l : JsObject.t CacheEntry.t,
             filter (unexpired None now) l = l).
  { induction l as [|x l IHl]; cbn; [reflexivity | now rewrite IHl]. }
  destruct (cache s) as [c|] eqn:Eca.
  - destruct (maxAge (cfg s)) as [age|] eqn:Ea.
    + assert (He : entriesOf s = [] ++ c) by (unfold entriesOf; now rewrite Eca).
      destruct (pruneLoop_sound age now c s [] Hs He) as (A & B & C & D).
      rewrite (cache_entriesOf _ _ Eca). auto.
    + cbn [fst snd]. rewrite Hall. auto.
  - cbn [fst snd]. unfold entriesOf. rewrite Eca. auto.
Qed.

Lemma sound_runHandlers hs : forall s,
  sound s -> sound (runHandlers hs s).
Proof.
  induction hs as [|h hs IH]; intros s Hs; cbn [runHandlers]; [exact Hs|].
  apply IH. destruct (isCurrent (hKey h) (hEntry h) s) eqn:E.
  - rewrite removeIfEntry_current by exact E. now apply sound_remove.
  - now rewrite removeIfEntry_stale.
Qed.

Lemma sound_step s o : sound s -> sound (step s o).
Proof.
  intros Hs. destruct o as [k setter now|k now|k|now|  |now| |p|now];
    cbn [step].
  - now apply sound_get.
  - exact Hs.
  - now apply sound_remove.
  - unfold getSize. destruct (sound_prune s now Hs) as (_ & H & _).
    now destruct (prune now s) as [s' [r|err]].
  - now apply sound_clear.
  - now apply sound_prune.
  - now apply sound_destroy.
  - unfold rejectPromise. apply sound_runHandlers.
    eapply sound_tview; [|exact Hs]. reflexivity.
  - unfold tick. destruct (pruningIntervalId s); [|exact Hs].
    now apply sound_prune.
Qed.

Lemma sound_run ops : forall s, sound s -> sound (run ops s).
Proof.
  induction ops as [|o ops IH]; intros s Hs; [exact Hs|].
  change (run (o :: ops) s) with (run ops (step s o)).
  apply IH, sound_step, Hs.
Qed.

(** ** What the calls leave alone: configuration and setter log *)

Lemma cfg_evictOverflow s : cfg (fst (evictOverflow s)) = cfg s.
Proof.
  unfold evictOverflow.
  destruct (maxSize (cfg s)) as [m|]; [|reflexivity].
  destruct (size s >? m); [|reflexivity].
  destruct (lruList s) as [l|]; [|reflexivity].
  destruct (LruList.getLru l) as [v|]; [|reflexivity].
  pose proof (cfg_remove (CacheEntry.getKey v) s) as H.
  now destruct (remove (CacheEntry.getKey v) s) as [s' [r'|err]].
Qed.

Lemma cfg_get k setter now s : cfg (fst (get k setter now s)) = cfg s.
Proof.
  destruct setter as [fn ret|]; [|reflexivity].
  destruct (has k now s) eqn:Hhas.
  - destruct (has_true_stored _ _ _ Hhas) as (e & Hst & Hexp).
    rewrite (get_hit _ _ _ _ _ _ Hst Hexp). cbn [fst].
    rewrite <- (cfg_lazyInit s). now destruct (lruList (lazyInit s)).
  - rewrite (get_miss _ _ _ _ _ (has_false_miss _ _ _ Hhas)).
    destruct ret as [p|].
    + now destruct (addEntry_thenable s k fn p now) as (_ & A & _).
    + unfold addEntry. cbn [fst]. apply cfg_lazyInit.
Qed.

Lemma cfg_pruneLoop age now props : forall s,
  cfg (fst (pruneLoop age now props s)) = cfg s.
Proof.
  induction props as [|[k e] props IH]; intros s; cbn [pruneLoop]; [reflexivity|].
  destruct (CacheEntry.isExpired (Some age) now e); [|apply IH].
  pose proof (cfg_removeEntry e s) as H.
  destruct (removeEntry e s) as [s' [r|err]]; cbn [fst] in *; [|exact H].
  now rewrite IH.
Qed.

Lemma cfg_prune now s : cfg (fst (prune now s)) = cfg s.
Proof.
  unfold prune. destruct (cache s); [|reflexivity].
  destruct (maxAge (cfg s)); [apply cfg_pruneLoop | reflexivity].
Qed.

Lemma cfg_removeIfEntry k e s : cfg (fst (removeIfEntry k e s)) = cfg s.
Proof.
  unfold removeIfEntry. destruct (cache s) as [c|]; [|reflexivity].
  destruct (JsObject.lookup k c) as [e'|]; [|reflexivity].
  destruct (CacheEntry.same e' e); [|reflexivity].
  pose proof (cfg_remove k s) as Hc.
  now destruct (remove k s) as [s' [r|err]].
Qed.

Lemma cfg_runHandlers hs : forall s, cfg (runHandlers hs s) = cfg s.
Proof.
  induction hs as [|h hs IH]; intros s; cbn [runHandlers]; [reflexivity|].
  now rewrite IH, cfg_removeIfEntry.
Qed.

Lemma cfg_step s o : cfg (step s o) = cfg s.
Proof.
  destruct o as [k setter now|k now|k|now|  |now| |p|now]; cbn [step]; auto.
  - apply cfg_get.
  - apply cfg_remove.
  - unfold getSize. pose proof (cfg_prune now s) as H.
    now destruct (prune now s) as [s' [r|err]].
  - apply cfg_clear.
  - apply cfg_prune.
  - unfold destroy. cbn. apply cfg_stopPruningInterval.
  - unfold rejectPromise. now rewrite cfg_runHandlers.
  - unfold tick. destruct (pruningIntervalId s); [apply cfg_prune | reflexivity].
Qed.

Lemma cfg_run ops : forall s, cfg (run ops s) = cfg s.
Proof.
  induction ops as [|o ops IH]; intros s; [reflexivity|].
  change (run (o :: ops) s) with (run ops (step s o)).
  now rewrite IH, cfg_step.
Qed.

Lemma reachable_sound c s : reachable c s -> sound s /\ cfg s = c.
Proof.
  intros [ops ->]. split; [apply sound_run, sound_init | apply cfg_run].
Qed.

Lemma calls_removeIfEntry k e s :
  setterCalls (host (fst (removeIfEntry k e s))) = setterCalls (host s).
Proof.
  unfold removeIfEntry. destruct (cache s) as [c|]; [|reflexivity].
  destruct (JsObject.lookup k c) as [e'|]; [|reflexivity].
  destruct (CacheEntry.same e' e); [|reflexivity].
  pose proof (calls_remove k s) as Hc.
  now destruct (remove k s) as [s' [r|err]].
Qed.

Lemma calls_runHandlers hs : forall s,
  setterCalls (host (runHandlers hs s)) = setterCalls (host s).
Proof.
  induction hs as [|h hs IH]; intros s; cbn [runHandlers]; [reflexivity|].
  now rewrite IH, calls_removeIfEntry.
Qed.

Lemma calls_rejectPromise p s :
  setterCalls (host (rejectPromise p s)) = setterCalls (host s).
Proof. unfold rejectPromise. now rewrite calls_runHandlers. Qed.

Lemma calls_pruneLoop age now props : forall s,
  setterCalls (host (fst (pruneLoop age now props s))) = setterCalls (host s).
Proof.
  induction props as [|[k e] props IH]; intros s; cbn [pruneLoop]; [reflexivity|].
  destruct (CacheEntry.isExpired (Some age) now e); [|apply IH].
  pose proof (calls_removeEntry e s) as H.
  destruct (removeEntry e s) as [s' [r|err]]; cbn [fst] in *; [|exact H].
  now rewrite IH.
Qed.

Lemma calls_prune now s :
  setterCalls (host (fst (prune now s))) = setterCalls (host s).
Proof.
  unfold prune. destruct (cache s); [|reflexivity].
  destruct (maxAge (cfg s)); [apply calls_pruneLoop | reflexivity].
Qed.

Lemma calls_get_miss k fn ret now s :
  has k now s = false ->
  setterCalls (host (fst (get k (Fn fn ret) now s))) = fn :: setterCalls (host s).
Proof.
  intros Hhas. rewrite (get_miss _ _ _ _ _ (has_false_miss _ _ _ Hhas)).
  now rewrite calls_addEntry, host_lazyInit.
Qed.

Lemma calls_get_hit k fn ret now s :
  has k now s = true ->
  setterCalls (host (fst (get k (Fn fn ret) now s))) = setterCalls (host s).
Proof.
  intros Hhas. destruct (has_true_stored _ _ _ Hhas) as (e & Hst & Hexp).
  now apply (get_hit_calls _ _ _ _ _ e).
Qed.

Lemma has_stored k now s :
  has k now s =
  match stored k s with
  | Some e => negb (CacheEntry.isExpired (maxAge (cfg s)) now e)
  | None => false
  end.
Proof.
  unfold has, stored, entriesOf. destruct (cache s) as [c|]; reflexivity.
Qed.

(** ** Bookkeeping and timer in every reachable state *)





(** ** How [get] completes and when it invokes the setter *)



(** ** [remove], [prune] and [getSize] in reachable states *)



Lemma lookup_filter {V} (f : string * V -> bool) k (o : JsObject.t V) :
  NoDup (JsObject.keys o) ->
  JsObject.lookup k (filter f o) =
  match JsObject.lookup k o with
  | Some v => if f (k, v) then Some v else None
  | None => None
  end.
Proof.
  induction o as [|[k' v'] o IH]; cbn; [reflexivity|].
  intros Hnd. inversion Hnd as [|? ? Hn Hnd']; subst.
  destruct (String.eqb_spec k k') as [->|Hne].
  - destruct (f (k', v')) eqn:Ef; cbn.
    + now rewrite String.eqb_refl.
    + rewrite (IH Hnd'). apply lookup_None_notin in Hn.
      unfold JsObject.keys in Hn. now rewrite Hn.
  - destruct (f (k', v')); cbn; [|auto].
    destruct (String.eqb_spec k k'); [contradiction | auto].
Qed.

Lemma pruneLoop_nothing_expired age now props s :
  (forall k e, In (k, e) props -> CacheEntry.isExpired (Some age) now e = false) ->
  pruneLoop age now props s = (s, Normal tt).
Proof.
  induction props as [|[k e] props IH]; intros H; cbn [pruneLoop]; [reflexivity|].
  rewrite (H k e) by now left. apply IH. intros k' e' Hin. apply (H k' e').
  now right.
Qed.





(** ** Rejection invalidates the entry *)

Lemma remove_only_removes k k' s :
  stored k (fst (remove k' s)) = stored k s \/
  stored k (fst (remove k' s)) = None.
Proof.
  destruct (stored k' s) as [x|] eqn:Hx.
  - destruct (remove_present _ _ _ Hx) as [-> _].
    destruct (Z.eq_dec (size s) 1) as [E|E].
    + rewrite removeEntry_last by exact E. right. cbn [fst].
      pose proof (view_clear s) as Hv. unfold view in Hv.
      injection Hv as _ Hv _ _ _. unfold stored. now rewrite Hv.
    + destruct (removeEntry_other x s _ E (stored_cache _ _ _ Hx)) as (_ & Hv & _).
      unfold view in Hv. injection Hv as _ Hv _ _ _.
      unfold stored. rewrite Hv.
      destruct (String.eqb_spec k (CacheEntry.key x)) as [->|Hne].
      * right. apply lookup_delete_same.
      * left. now rewrite lookup_delete_other.
  - destruct (remove_absent _ _ Hx) as [-> _]. now left.
Qed.

Lemma removeIfEntry_only_removes k k' e' s :
  stored k (fst (removeIfEntry k' e' s)) = stored k s \/
  stored k (fst (removeIfEntry k' e' s)) = None.
Proof.
  destruct (isCurrent k' e' s) eqn:E.
  - rewrite removeIfEntry_current by exact E. apply remove_only_removes.
  - rewrite removeIfEntry_stale by exact E. now left.
Qed.

Lemma removeIfEntry_own k e s :
  stored k s = Some e -> CacheEntry.key e = k ->
  stored k (fst (removeIfEntry k e s)) = None.
Proof.
  intros Hst Hk.
  assert (Hcur : isCurrent k e s = true).
  { unfold isCurrent. rewrite Hst. apply Nat.eqb_refl. }
  rewrite removeIfEntry_current by exact Hcur.
  destruct (remove_present _ _ _ Hst) as [-> _].
  destruct (Z.eq_dec (size s) 1) as [E|E].
  - rewrite removeEntry_last by exact E. cbn [fst].
    pose proof (view_clear s) as Hv. unfold view in Hv.
    injection Hv as _ Hv _ _ _. unfold stored. now rewrite Hv.
  - destruct (removeEntry_other e s _ E (stored_cache _ _ _ Hst)) as (_ & Hv & _).
    unfold view in Hv. injection Hv as _ Hv _ _ _.
    unfold stored. rewrite Hv, Hk. apply lookup_delete_same.
Qed.

Lemma runHandlers_invalidates p k e hs : forall s,
  CacheEntry.key e = k ->
  stored k s = None \/ (stored k s = Some e /\ In (mkHandler p k e) hs) ->
  stored k (runHandlers hs s) = None.
Proof.
  induction hs as [|h hs IH]; intros s Hk H; cbn [runHandlers].
  - destruct H as [H|[_ []]]. exact H.
  - apply IH; [exact Hk|].
    destruct H as [Hn|[Hst [Hh|Hin]]].
    + left. destruct (removeIfEntry_only_removes k (hKey h) (hEntry h) s);
        congruence.
    + left. subst h. cbn [hKey hEntry]. now apply removeIfEntry_own.
    + destruct (removeIfEntry_only_removes k (hKey h) (hEntry h) s) as [E|E].
      * right. split; [congruence | exact Hin].
      * now left.
Qed.



(** ** [clear] and [destroy] *)

(** X9.  [clear] and [destroy] are idempotent, [clear] absorbs [destroy] in
    either order, and after either of them [has] is false for every key and
    [remove] and [prune] change nothing. *)
Theorem clear_destroy_compose (s : State) (k : string) (now : Z) :
  clear (clear s) = clear s /\
  destroy (destroy s) = destroy s /\
  clear (destroy s) = clear s /\
  destroy (clear s) = clear s /\
  has k now (clear s) = false /\
  has k now (destroy s) = false /\
  remove k (destroy s) = (destroy s, Normal RetFalse) /\
  prune now (destroy s) = (destroy s, Normal tt).
Proof.
  unfold clear, destroy, stopPruningInterval, clearInterval, remove, prune, has.
  destruct s as [cf ca sz [id|] l [n cs hs iv ni]]; cbn;
    repeat split; reflexivity.
Qed.

(** ** The capacity bound *)

Lemma card_remove_le k s : cardinality (fst (remove k s)) <= cardinality s.
Proof.
  unfold cardinality. destruct (stored k s) as [x|] eqn:Hx.
  - destruct (remove_present _ _ _ Hx) as [-> _].
    destruct (Z.eq_dec (size s) 1) as [E|E].
    + rewrite removeEntry_last by exact E. cbn [fst].
      pose proof (view_clear s) as Hv. unfold view in Hv.
      injection Hv as _ Hv _ _ _. rewrite Hv. cbn. lia.
    + destruct (removeEntry_other x s _ E (stored_cache _ _ _ Hx)) as (_ & Hv & _).
      unfold view in Hv. injection Hv as _ Hv _ _ _. rewrite Hv, delete_filter.
      pose proof (filter_length_le
        (fun kv : string * CacheEntry.t =>
           negb (String.eqb (CacheEntry.key x) (fst kv))) (entriesOf s)). lia.
  - destruct (remove_absent _ _ Hx) as [-> _]. lia.
Qed.

Lemma card_runHandlers_le hs : forall s,
  cardinality (runHandlers hs s) <= cardinality s.
Proof.
  induction hs as [|h hs IH]; intros s; cbn [runHandlers]; [lia|].
  specialize (IH (fst (removeIfEntry (hKey h) (hEntry h) s))).
  destruct (isCurrent (hKey h) (hEntry h) s) eqn:E.
  - rewrite removeIfEntry_current in * by exact E.
    pose proof (card_remove_le (hKey h) s). lia.
  - rewrite removeIfEntry_stale in * by exact E. exact IH.
Qed.

Lemma card_prune_le s now :
  consistent s -> cardinality (fst (prune now s)) <= cardinality s.
Proof.
  intros Hc. destruct (prune_consistent s now Hc) as (_ & _ & _ & D & _).
  unfold cardinality. rewrite D.
  pose proof (filter_length_le (unexpired (maxAge (cfg s)) now) (entriesOf s)).
  lia.
Qed.

Lemma bounded_step s o N :
  consistent s -> maxSize (cfg s) = Some N -> 1 <= N ->
  size s <= N -> benign s o -> size (step s o) <= N.
Proof.
  intros Hc Hm HN Hle Hb.
  pose proof (consistent_step s o Hc Hb) as Hc'.
  assert (Hcard : cardinality (step s o) <= cardinality s -> size (step s o) <= N).
  { intros H. rewrite (con_size _ Hc'). rewrite (con_size _ Hc) in Hle. lia. }
  destruct o as [k setter now|k now|k|now|  |now| |p|now]; cbn [step] in *.
  - destruct setter as [fn ret|]; [|exact Hle].
    destruct (has k now s) eqn:Hhas.
    + destruct (has_true_stored _ _ _ Hhas) as (e & Hst & Hexp).
      destruct (get_hit_consistent s k fn ret now e Hc Hst Hexp)
        as (_ & _ & _ & _ & A & _). lia.
    + destruct ret as [p|].
      * cbn [benign] in Hb. destruct Hb as [Hst|Habs]; [|congruence].
        destruct (Z_le_gt_dec (size s + 1) N) as [Hfit|Hgt].
        -- destruct (get_insert_fits s k fn p now Hc Hst) as (_ & _ & _ & _ & A & _).
           { intros m Hm'. congruence. }
           lia.
        -- destruct (get_insert_evict s k fn p now N Hc Hst Hm HN Hgt)
             as (v & _ & _ & _ & _ & _ & _ & _ & A & _). lia.
      * rewrite (get_miss _ _ _ _ _ (has_false_miss _ _ _ Hhas)).
        unfold addEntry. cbn [fst callSetter set_host size].
        now rewrite size_lazyInit.
  - exact Hle.
  - apply Hcard, card_remove_le.
  - apply Hcard. unfold getSize. pose proof (card_prune_le s now Hc) as H.
    now destruct (prune now s) as [s' [r|err]].
  - apply Hcard. pose proof (view_clear s) as Hv. unfold view in Hv.
    injection Hv as _ Hv _ _ _. unfold cardinality. rewrite Hv. cbn. lia.
  - apply Hcard, card_prune_le, Hc.
  - apply Hcard. cbn [benign] in Hb. unfold cardinality. rewrite Hb.
    unfold destroy, entriesOf. cbn. lia.
  - apply Hcard. unfold rejectPromise.
    pose proof (card_runHandlers_le
      (filter (isFor p) (handlers (host s))) (dropHandlers p s)) as H.
    exact H.
  - apply Hcard. unfold tick. destruct (pruningIntervalId s); [|lia].
    apply card_prune_le, Hc.
Qed.

Lemma bounded_run N ops : forall s,
  consistent s -> maxSize (cfg s) = Some N -> 1 <= N -> size s <= N ->
  (forall pre o post, ops = pre ++ o :: post -> benign (run pre s) o) ->
  consistent (run ops s) /\ size (run ops s) <= N.
Proof.
  induction ops as [|o ops IH]; intros s Hc Hm HN Hle Hb; [auto|].
  change (run (o :: ops) s) with (run ops (step s o)).
  pose proof (Hb [] o ops eq_refl) as Hb0. cbn in Hb0.
  apply IH; auto.
  - now apply consistent_step.
  - now rewrite cfg_step.
  - now apply bounded_step.
  - intros pre o' post E. apply (Hb (o :: pre) o' post). cbn. now rewrite E.
Qed.



(** ** The earlier version *)

Lemma V1_get_miss_stores k fn p now s :
  V1_hit k now s = false ->
  V1.get k (Fn fn (Thenable p)) now s =
    (V1.mkState (V1.maxAge s)
       (Some (JsObject.assign k (V1.mkCacheEntry p now)
                (match V1.cache s with Some c => c | None => [] end)))
       (fn :: V1.setterCalls s) (V1.handlers s ++ [(p, k)]),
     Normal p).
Proof.
  unfold V1_hit, V1_stored, V1.get, V1.isExpired. intros H.
  destruct (V1.cache s) as [c|]; cbn.
  - destruct (JsObject.lookup k c) as [e|]; [|reflexivity].
    cbn in *. now rewrite H.
  - reflexivity.
Qed.



Lemma V1_runHandlers_keeps_absent k hs : forall s,
  V1_stored k s = None -> V1_stored k (V1.runHandlers hs s) = None.
Proof.
  induction hs as [|[q k'] hs IH]; intros s H; cbn [V1.runHandlers]; [exact H|].
  apply IH. unfold V1_stored, V1.onRejected in H |- *.
  destruct (V1.cache s) as [c|] eqn:E; cbn; [|now rewrite E].
  destruct (String.eqb_spec k k') as [->|Hne].
  - apply lookup_delete_same.
  - now rewrite lookup_delete_other.
Qed.

Lemma V1_runHandlers_removes p k hs : forall s,
  V1.cache s <> None -> In (p, k) hs ->
  V1_stored k (V1.runHandlers hs s) = None.
Proof.
  induction hs as [|[q k'] hs IH]; intros s Hca Hin; [contradiction|].
  cbn [V1.runHandlers]. destruct Hin as [[= -> ->]|Hin].
  - apply V1_runHandlers_keeps_absent. unfold V1_stored, V1.onRejected.
    destruct (V1.cache s) as [c|]; [|contradiction]. cbn.
    apply lookup_delete_same.
  - apply IH; [|exact Hin]. unfold V1.onRejected.
    destruct (V1.cache s); [discriminate | contradiction].
Qed.

(** X12.  In the earlier version the rejection callback deletes whatever is
    stored under its key: after the rejection of a promise none of the keys
    registered with it is stored, also when the entry now stored under the
    key was created by a later call; the setter log is untouched. *)
Theorem V1_rejection_removes_key
    (s : V1.State) (p : PromiseRef) (k : string) :
  V1.cache s <> None -> In (p, k) (V1.handlers s) ->
  V1_stored k (V1.rejectPromise p s) = None /\
  (forall now, V1_hit k now (V1.rejectPromise p s) = false).
Proof.
  intros Hca Hin.
  assert (H : V1_stored k (V1.rejectPromise p s) = None).
  { unfold V1.rejectPromise. apply (V1_runHandlers_removes p).
    - exact Hca.
    - apply filter_In. split; [exact Hin|]. apply Nat.eqb_refl. }
  split; [exact H|]. intros now. unfold V1_hit. now rewrite H.
Qed.

Lemma V1_rejection_removes_key_witness :
  let s1 := fst (V1.get "a" (Fn 1 (Thenable 10)) 0
                   (V1.init (V1.Finite 100))) in
  let s2 := fst (V1.get "a" (Fn 1 (Thenable 11)) 150 s1) in
  V1_stored "a" s2 = Some (V1.mkCacheEntry 11 150) /\
  V1_stored "a" (V1.rejectPromise 10 s2) = None.
Proof.
  split; [reflexivity|].
  apply (V1_rejection_removes_key
           (fst (V1.get "a" (Fn 1 (Thenable 11)) 150
              (fst (V1.get "a" (Fn 1 (Thenable 10)) 0
                      (V1.init (V1.Finite 100)))))) 10%nat "a").
  - discriminate.
  - left. reflexivity.
Defined.

(** ** Stored entries and the LRU list in reachable states *)

Lemma linked_view s s' : view s = view s' -> linked s -> linked s'.
Proof.
  unfold view. intros [= Hc He _ Hl Hn] [H1 H2 H3].
  constructor; rewrite <- ?Hc, <- ?He, <- ?Hl, <- ?Hn; auto.
Qed.

Lemma linked_init c : linked (init c).
Proof. constructor; cbn; auto using NoDup_nil; tauto. Qed.

Lemma linked_empty s : entriesOf s = [] -> linked s.
Proof.
  intros He. constructor; rewrite He; cbn; auto using NoDup_nil; tauto.
Qed.

Lemma values_in_delete k (o : JsObject.t CacheEntry.t) y :
  In y (JsObject.values (JsObject.delete k o)) ->
  exists k', k' <> k /\ In (k', y) o.
Proof.
  unfold JsObject.values. rewrite delete_filter. intros H.
  apply in_map_iff in H as ([k' y'] & Hy & Hin). cbn in Hy. subst y'.
  apply filter_In in Hin as [Hin Hf]. cbn in Hf.
  exists k'. split; [|exact Hin].
  intros ->. now rewrite String.eqb_refl in Hf.
Qed.

Lemma NoDup_oids_delete k (o : JsObject.t CacheEntry.t) :
  NoDup (map CacheEntry.oid (JsObject.values o)) ->
  NoDup (map CacheEntry.oid (JsObject.values (JsObject.delete k o))).
Proof.
  unfold JsObject.values. rewrite delete_filter, !map_map.
  apply NoDup_map_filter.
Qed.

Lemma in_remove_other x y l :
  In y l -> CacheEntry.oid y <> CacheEntry.oid x -> In y (LruList.remove x l).
Proof.
  intros Hin Hne. unfold LruList.remove. apply filter_In. split; [exact Hin|].
  unfold CacheEntry.same. apply negb_true_iff, Nat.eqb_neq. congruence.
Qed.

Lemma linked_removeEntry s x :
  sound s -> linked s -> In (CacheEntry.key x, x) (entriesOf s) ->
  linked (fst (removeEntry x s)).
Proof.
  intros Hs [H1 H2 H3] Hin.
  destruct (Z.eq_dec (size s) 1) as [E|E].
  - rewrite removeEntry_last by exact E. cbn [fst]. apply linked_empty.
    pose proof (view_clear s) as Hv. unfold view in Hv. congruence.
  - assert (Hca : cache s = Some (entriesOf s)).
    { unfold entriesOf in *. destruct (cache s); [reflexivity | contradiction]. }
    destruct (removeEntry_other x s _ E Hca) as (_ & Hv & _).
    unfold view in Hv. injection Hv as Hv1 Hv2 _ Hv4 Hv5.
    constructor; rewrite ?Hv1, ?Hv2, ?Hv4, ?Hv5.
    + now apply NoDup_oids_delete.
    + intros y Hy. apply values_in_delete in Hy as (k' & _ & Hy).
      apply H2. now apply (in_map snd) in Hy.
    + intros Hm y Hy. apply values_in_delete in Hy as (k' & Hne & Hy).
      pose proof (in_map snd _ _ Hy) as Hyv. cbn in Hyv.
      apply in_remove_other; [now apply H3|].
      intros Ho. apply Hne.
      assert (y = x).
      { eapply (NoDup_map_inj CacheEntry.oid); eauto.
        now apply (in_map snd) in Hin. }
      subst y. symmetry. apply (snd_key _ Hs _ _ Hy).
Qed.

Lemma linked_remove s k : sound s -> linked s -> linked (fst (remove k s)).
Proof.
  intros Hs Hl. destruct (stored k s) as [x|] eqn:Hx.
  - destruct (remove_present _ _ _ Hx) as [-> _].
    pose proof (lookup_Some_in _ _ _ Hx) as Hin.
    pose proof (snd_key _ Hs _ _ Hin) as Hk. rewrite <- Hk in Hin.
    now apply linked_removeEntry.
  - now destruct (remove_absent _ _ Hx) as [-> _].
Qed.

Lemma NoDup_oids_assign k e (o : JsObject.t CacheEntry.t) :
  NoDup (map CacheEntry.oid (JsObject.values o)) ->
  ~ In (CacheEntry.oid e) (map CacheEntry.oid (JsObject.values o)) ->
  NoDup (map CacheEntry.oid (JsObject.values (JsObject.assign k e o))).
Proof.
  unfold JsObject.values. induction o as [|[k' v'] o IH]; cbn; intros Hnd Hn.
  - constructor; [tauto | constructor].
  - inversion Hnd as [|? ? Hn' Hnd']; subst.
    destruct (String.eqb k k'); cbn.
    + constructor; [tauto | exact Hnd'].
    + constructor; [|apply IH; tauto].
      intros Hin. apply in_map_iff in Hin as (y & Hy & Hin).
      apply in_map_iff in Hin as (kv & Hkv & Hin). subst y.
      apply in_assign in Hin as [->|Hin].
      * cbn in Hy. apply Hn. now left.
      * apply Hn'. rewrite <- Hy. apply in_map. now apply (in_map snd) in Hin.
Qed.

Lemma linked_evictOverflow s :
  sound s -> linked s -> linked (fst (evictOverflow s)).
Proof.
  intros Hs Hl. unfold evictOverflow.
  destruct (maxSize (cfg s)) as [m|]; [|exact Hl].
  destruct (size s >? m); [|exact Hl].
  destruct (lruList s) as [l|]; [|exact Hl].
  destruct (LruList.getLru l) as [v|]; [|exact Hl].
  pose proof (linked_remove s (CacheEntry.getKey v) Hs Hl) as H.
  now destruct (remove (CacheEntry.getKey v) s) as [s' [r|err]].
Qed.

Lemma linked_get s k setter now :
  sound s -> linked s -> linked (fst (get k setter now s)).
Proof.
  intros Hs Hl. destruct setter as [fn ret|]; [|exact Hl].
  destruct (has k now s) eqn:Hhas.
  - destruct (has_true_stored _ _ _ Hhas) as (e & Hst & Hexp).
    rewrite (get_hit _ _ _ _ _ _ Hst Hexp). cbn [fst].
    pose proof (linked_view _ _ (eq_sym (view_lazyInit s)) Hl) as [H1 H2 H3].
    pose proof (lruOf_lazyInit s) as Hlo. unfold lruOf in Hlo at 1.
    destruct (lruList (lazyInit s)) as [l|] eqn:El;
      [|now apply (linked_view s); [symmetry; apply view_lazyInit|]].
    subst l.
    constructor; auto.
    change (cfg (set_lruList (Some (LruList.touch e (lruOf s))) (lazyInit s)))
      with (cfg (lazyInit s)).
    change (entriesOf (set_lruList (Some (LruList.touch e (lruOf s))) (lazyInit s)))
      with (entriesOf (lazyInit s)).
    intros Hm y Hy. unfold lruOf at 1. cbn [lruList set_lruList].
    specialize (H3 Hm). rewrite lruOf_lazyInit in H3.
    pose proof (H3 y Hy) as Hyl.
    unfold LruList.touch. destruct (LruList.linked e (lruOf s)); [|exact Hyl].
    destruct (Nat.eq_dec (CacheEntry.oid y) (CacheEntry.oid e)) as [Ho|Ho].
    + left. symmetry. eapply (NoDup_map_inj CacheEntry.oid); eauto.
      rewrite entriesOf_lazyInit. apply lookup_Some_in in Hst.
      now apply (in_map snd) in Hst.
    + right. now apply in_remove_other.
  - rewrite (get_miss _ _ _ _ _ (has_false_miss _ _ _ Hhas)).
    destruct ret as [p|];
      [|unfold addEntry; cbn [fst];
        now apply (linked_view s); [symmetry; apply view_lazyInit|]].
    unfold addEntry. set (s0 := callSetter fn (lazyInit s)).
    assert (Hca : cache s0 = Some (entriesOf s)) by apply cache_lazyInit.
    assert (Hs0 : sound s0).
    { eapply sound_tview; [|exact Hs]. symmetry. apply tview_lazyInit. }
    destruct (sound_storeEntry s0 k p now Hs0) as (A & B & _); [congruence|].
    destruct (storeEntry_view k p now s0 _ Hca) as (_ & Hv & Hll & _).
    change (nextOid (host s0)) with (nextOid (host (lazyInit s))) in A, Hv, Hll.
    change (cfg s0) with (cfg (lazyInit s)) in Hv.
    change (lruList s0) with (lruList (lazyInit s)) in Hv, Hll.
    rewrite host_lazyInit, cfg_lazyInit in *.
    set (e := CacheEntry.make (nextOid (host s)) k p now) in *.
    destruct Hl as [H1 H2 H3].
    assert (Hl5 : linked (fst (storeEntry k p now s0))).
    { unfold view in Hv. injection Hv as Hv1 Hv2 _ Hv4 Hv5.
      assert (Hfresh : ~ In (CacheEntry.oid e)
                         (map CacheEntry.oid (JsObject.values (entriesOf s)))).
      { intros Hin. apply in_map_iff in Hin as (y & Hy & Hin).
        pose proof (H2 y Hin). cbn in Hy. lia. }
      constructor; rewrite ?Hv1, ?Hv2, ?Hv4, ?Hv5.
      - now apply NoDup_oids_assign.
      - intros y Hy. unfold JsObject.values in Hy.
        apply in_map_iff in Hy as (kv & Hkv & Hin). subst y.
        apply in_assign in Hin as [->|Hin]; [cbn; lia|].
        apply (in_map snd) in Hin. pose proof (H2 _ Hin). lia.
      - intros Hm y Hy. rewrite (lruList_lazyInit _ Hm).
        unfold JsObject.values in Hy.
        apply in_map_iff in Hy as (kv & Hkv & Hin). subst y.
        apply in_assign in Hin as [->|Hin]; [now left|].
        right. apply (H3 Hm). now apply (in_map snd) in Hin. }
    destruct (storeEntry k p now s0) as [s5 r5]. cbn [fst snd] in *. subst r5.
    pose proof (linked_evictOverflow s5 B Hl5) as H6.
    destruct (evictOverflow s5) as [s6 [r6|err]]; cbn [fst] in *; [|exact H6].
    eapply linked_view; [|exact H6]. reflexivity.
Qed.

Lemma linked_pruneLoop age now rest : forall s kept,
  sound s -> linked s -> entriesOf s = kept ++ rest ->
  linked (fst (pruneLoop age now rest s)).
Proof.
  induction rest as [|[k e] rest IH]; intros s kept Hs Hl He; cbn [pruneLoop].
  - exact Hl.
  - destruct (CacheEntry.isExpired (Some age) now e) eqn:Hexp.
    + assert (Hin : In (k, e) (entriesOf s))
        by (rewrite He; apply in_or_app; right; now left).
      pose proof (snd_key _ Hs _ _ Hin) as Hk. rewrite <- Hk in Hin.
      destruct (sound_removeEntry s e Hs Hin) as (A & B & _ & D).
      pose proof (linked_removeEntry s e Hs Hl Hin) as Hl1.
      pose proof (snd_keys _ Hs) as Hnd. rewrite He in Hnd.
      rewrite Hk, He, (delete_middle _ _ _ _ Hnd) in D.
      destruct (removeEntry e s) as [s1 r1]. cbn [fst snd] in *. subst r1.
      exact (IH s1 kept B Hl1 D).
    + apply (IH s (kept ++ [(k, e)]) Hs Hl). now rewrite <- app_assoc.
Qed.

Lemma linked_prune s now : sound s -> linked s -> linked (fst (prune now s)).
Proof.
  intros Hs Hl. unfold prune. destruct (cache s) as [c|] eqn:Eca; [|exact Hl].
  destruct (maxAge (cfg s)) as [age|]; [|exact Hl].
  apply (linked_pruneLoop age now c s []); auto.
  unfold entriesOf. now rewrite Eca.
Qed.

Lemma linked_runHandlers hs : forall s,
  sound s -> linked s -> linked (runHandlers hs s).
Proof.
  induction hs as [|h hs IH]; intros s Hs Hl; cbn [runHandlers]; [exact Hl|].
  destruct (isCurrent (hKey h) (hEntry h) s) eqn:E.
  - rewrite removeIfEntry_current by exact E.
    apply IH; [now apply sound_remove | now apply linked_remove].
  - rewrite removeIfEntry_stale by exact E. now apply IH.
Qed.

Lemma linked_step s o : sound s -> linked s -> linked (step s o).
Proof.
  intros Hs Hl. destruct o as [k setter now|k now|k|now|  |now| |p|now];
    cbn [step].
  - now apply linked_get.
  - exact Hl.
  - now apply linked_remove.
  - unfold getSize. pose proof (linked_prune s now Hs Hl) as H.
    now destruct (prune now s) as [s' [r|err]].
  - apply linked_empty. pose proof (view_clear s) as Hv. unfold view in Hv.
    congruence.
  - now apply linked_prune.
  - apply linked_empty. reflexivity.
  - unfold rejectPromise. apply linked_runHandlers.
    + eapply sound_tview; [|exact Hs]. reflexivity.
    + eapply linked_view; [|exact Hl]. reflexivity.
  - unfold tick. destruct (pruningIntervalId s); [|exact Hl].
    now apply linked_prune.
Qed.

Lemma linked_run ops : forall s, sound s -> linked s -> linked (run ops s).
Proof.
  induction ops as [|o ops IH]; intros s Hs Hl; [exact Hl|].
  change (run (o :: ops) s) with (run ops (step s o)).
  apply IH; [now apply sound_step | now apply linked_step].
Qed.

(** X13.  In every reachable state the entries stored under different keys
    are different objects, and with [maxSize] configured every stored entry
    is a node of the LRU list: the hit path of [get] always promotes a node
    that is linked, and the list is not empty when the map is not. *)
Theorem stored_entries_linked (c : Config) (s : State) :
  reachable c s ->
  (forall k k' e e', stored k s = Some e -> stored k' s = Some e' ->
                     CacheEntry.same e e' = true -> k = k') /\
  (maxSize c <> None ->
   forall k e, stored k s = Some e -> LruList.linked e (lruOf s) = true).
Proof.
  intros Hr. destruct (reachable_sound c s Hr) as [Hs Hc].
  assert (Hl : linked s).
  { destruct Hr as [ops ->]. apply linked_run; [apply sound_init | apply linked_init]. }
  split.
  - intros k k' e e' Hst Hst' Hsame.
    apply lookup_Some_in in Hst, Hst'.
    assert (e = e').
    { eapply (NoDup_map_inj CacheEntry.oid); [apply (lnk_oids _ Hl)| | |].
      - now apply (in_map snd) in Hst.
      - now apply (in_map snd) in Hst'.
      - now apply Nat.eqb_eq. }
    subst e'. rewrite <- (snd_key _ Hs _ _ Hst). apply (snd_key _ Hs _ _ Hst').
  - intros Hm k e Hst. rewrite <- Hc in Hm.
    unfold LruList.linked. apply existsb_exists. exists e.
    split; [|apply Nat.eqb_refl].
    apply (lnk_nodes _ Hl Hm). apply lookup_Some_in in Hst.
    now apply (in_map snd) in Hst.
Qed.

Lemma stored_entries_linked_witness :
  let s := run (overwriteRun ++ [OpGet "b" (Fn 2 (Thenable 12)) 150])
               (init (cfgSizeAge 2 100)) in
  LruList.linked (CacheEntry.make 2 "b" 12 150) (lruOf s) = true.
Proof.
  destruct (stored_entries_linked (cfgSizeAge 2 100)
              (run (overwriteRun ++ [OpGet "b" (Fn 2 (Thenable 12)) 150])
                   (init (cfgSizeAge 2 100)))) as [_ H].
  - eexists. reflexivity.
  - apply (H ltac:(discriminate) "b"). reflexivity.
Defined.
